(** * The event queue of analytics-next: buffering, flushing and retry

    A shallow embedding of [src/core/queue/event-queue.ts] and the
    properties of its dispatch / flush / flushOne operations.

    The engine is glue around three external collaborators: the [Context]
    class (an event with its log and metrics channels), the [Extension]
    interface (a plugin) and the two helpers [attempt] and [ensure] of
    [./delivery].  Their code is not part of the file; the engine is
    therefore written over a [World] that holds the mutable objects the
    engine touches, and the two helpers are parameters of the engine. *)

From Stdlib Require Import ZArith Lia.
From stdpp Require Import base list strings.

Local Open Scope Z_scope.
Local Open Scope string_scope.
Local Open Scope list_scope.

(** ** Objects living outside the engine *)

(** A [Context] value is a reference: JavaScript passes the event object
    around by identity and every holder sees the mutations of the others. *)
Abbreviation Context := nat (only parsing).

Definition Error := string.

(** What a context object holds as far as the engine can tell: its payload
    and whether [seal()] was called on it. *)
Record ContextState := mkContextState {
  event : string;
  sealed : bool
}.

(** Calls that reach the collaborators, in the order they happen.  The log
    lines and the metrics of a context are the entries of the journal that
    carry its reference. *)
Inductive Action :=
| Log (ctx : Context) (level message : string)
| Increment (ctx : Context) (metric : string)
| Gauge (ctx : Context) (metric : string) (value : Z)
| Seal (ctx : Context)
| Process (plugin : string) (ctx : Context).

Record World := mkWorld {
  heap : list ContextState;   (* the context objects, by reference *)
  journal : list Action;      (* calls made so far *)
  clock : Z;                  (* what [new Date().getTime()] reads; time
                                 passes only when a collaborator lets it *)
  timers : nat;               (* callbacks armed with [setTimeout] so far *)
  loaded : list string        (* plugins whose load has completed *)
}.

Definition set_heap (h : list ContextState) (w : World) : World :=
  mkWorld h (journal w) (clock w) (timers w) (loaded w).

Definition record (a : Action) (w : World) : World :=
  mkWorld (heap w) (journal w ++ [a]) (clock w) (timers w) (loaded w).

Definition setTimeout (w : World) : World :=
  mkWorld (heap w) (journal w) (clock w) (S (timers w)) (loaded w).

Definition set_loaded (l : list string) (w : World) : World :=
  mkWorld (heap w) (journal w) (clock w) (timers w) l.

Definition getTime (w : World) : Z := clock w.

(** The settlement of a promise. *)
Inductive Outcome (A : Type) :=
| Resolved (a : A)
| Rejected (e : Error).
Arguments Resolved {A} a.
Arguments Rejected {A} e.

(** An asynchronous function run to settlement. *)
Definition Async (A : Type) := World -> World * Outcome A.

Definition ret {A} (a : A) : Async A := fun w => (w, Resolved a).

Definition bind {A B} (m : Async A) (k : A -> Async B) : Async B :=
  fun w => match m w with
           | (w1, Resolved a) => k a w1
           | (w1, Rejected e) => (w1, Rejected e)
           end.

Definition tell (f : World -> World) : Async unit :=
  fun w => (f w, Resolved tt).

Declare Scope async_scope.
Delimit Scope async_scope with async.
Notation "x <- m ;; k" := (bind m (fun x => k))
  (at level 100, m at next level, right associativity) : async_scope.
Notation "m ;;; k" := (bind m (fun _ => k))
  (at level 100, right associativity) : async_scope.

(** Modelled from the spec: the absent [Extension] interface (sections 3
    and 6): a stage tag, [load], [isLoaded] and [process].  A plugin's
    [process] is described by what it does with the payload it is handed. *)
Inductive Step :=
| Fail (err : Error)          (* rejects *)
| Keep                        (* returns the context as it is *)
| Update (payload : string)   (* writes the payload, returns the same context *)
| Fresh (payload : string).   (* returns a new context with this payload *)

(** The plugin interface the engine consumes. *)
Record Extension := mkExtension {
  name : string;
  type : string;
  isLoaded : World -> bool;
  load : Context -> Async unit;
  process : string -> Step
}.

(** Modelled from the spec: the capability surface of the absent [Context]
    class (section 6): [log], [stats.increment], [stats.gauge], [seal()]
    and [Context.system()].  Logging and metrics are recorded in the
    journal; sealing marks the object, and a marked object refuses a
    change of its payload. *)
Module Ctx.

Definition log (ctx : Context) (level message : string) (w : World) : World :=
  record (Log ctx level message) w.

Definition stats_increment (ctx : Context) (metric : string) (w : World) : World :=
  record (Increment ctx metric) w.

Definition stats_gauge (ctx : Context) (metric : string) (value : Z) (w : World) : World :=
  record (Gauge ctx metric value) w.

Definition seal (ctx : Context) (w : World) : World :=
  record (Seal ctx)
    (set_heap (alter (fun s => mkContextState (event s) true) ctx (heap w)) w).

(** A new context object: its reference and the world that holds it. *)
Definition create (payload : string) (w : World) : World * Context :=
  (set_heap (heap w ++ [mkContextState payload false]) w, length (heap w)).

Definition system (w : World) : World * Context := create "system" w.

(** Writing the payload of a context; [None] when the write is refused. *)
Definition write (ctx : Context) (payload : string) (w : World) : option World :=
  match heap w !! ctx with
  | Some s =>
      if sealed s then None
      else Some (set_heap (<[ctx := mkContextState payload false]> (heap w)) w)
  | None => None
  end.

Definition payload_of (ctx : Context) (w : World) : option string :=
  event <$> heap w !! ctx.

Definition is_sealed (ctx : Context) (w : World) : bool :=
  match heap w !! ctx with
  | Some s => sealed s
  | None => false
  end.

End Ctx.

(** Modelled from the spec: the helpers [attempt] and [ensure] of the absent
    [./delivery] module (section 4.4).  [attempt] runs the plugin on the
    event and hands back the resulting context, or the error as a value when
    the plugin fails: the failure is absorbed and the event is left as it
    was.  [ensure] does the same but lets the failure propagate.  This is
    the helper as the enrichment stage uses it; the reading in which a
    destination failure propagates is [attempt_propagating] below. *)
Module Delivery.

Definition attempt (ctx : Context) (extension : Extension) : Async (Context + Error) :=
  fun w =>
    let w0 := record (Process (name extension) ctx) w in
    match Ctx.payload_of ctx w0 with
    | None => (w0, Resolved (inr "no such context"))
    | Some p =>
        match process extension p with
        | Fail err => (w0, Resolved (inr err))
        | Keep => (w0, Resolved (inl ctx))
        | Update p' =>
            match Ctx.write ctx p' w0 with
            | Some w1 => (w1, Resolved (inl ctx))
            | None => (w0, Resolved (inr "sealed"))
            end
        | Fresh p' =>
            let '(w1, c') := Ctx.create p' w0 in (w1, Resolved (inl c'))
        end
    end.

Definition ensure (ctx : Context) (extension : Extension) : Async (option Context) :=
  fun w =>
    match attempt ctx extension w with
    | (w1, Resolved (inl c')) => (w1, Resolved (Some c'))
    | (w1, Resolved (inr err)) => (w1, Rejected err)
    | (w1, Rejected err) => (w1, Rejected err)
    end.

End Delivery.

(** ** Promise combinators *)

(** [promises.map(...)]: every asynchronous call of the list is started, in
    list order; each plugin call is taken as one uninterrupted step. *)
Fixpoint start_all {A} (ps : list (Async A)) (w : World) : World * list (Outcome A) :=
  match ps with
  | [] => (w, [])
  | p :: ps' =>
      let '(w1, o) := p w in
      let '(w2, os) := start_all ps' w1 in
      (w2, o :: os)
  end.

(** [Promise.all]: resolves with all the values, or rejects with the first
    rejection. *)
Fixpoint Promise_all {A} (os : list (Outcome A)) : Outcome (list A) :=
  match os with
  | [] => Resolved []
  | Resolved a :: os' =>
      match Promise_all os' with
      | Resolved l => Resolved (a :: l)
      | Rejected e => Rejected e
      end
  | Rejected e :: _ => Rejected e
  end.

Definition await_all {A} (ps : list (Async A)) : Async (list A) :=
  fun w => let '(w1, os) := start_all ps w in (w1, Promise_all os).

(** [pWhile(condition, action)] of the p-whilst package: runs [action] as
    long as [condition] holds.  The loop need not end, so the model counts
    iterations down from [fuel] and answers [None] when they run out. *)
Fixpoint pWhile {S : Type} (fuel : nat) (condition : S -> bool) (action : S -> S)
    (s : S) : option S :=
  match fuel with
  | O => None
  | S fuel' =>
      if condition s then pWhile fuel' condition action (action s)
      else Some s
  end.

(** ** The engine *)

Record EventQueueConfig := mkEventQueueConfig {
  extensions : list Extension
}.

Record EventQueue := mkEventQueue {
  queue : list Context;
  archive : list Context;
  flushing : bool;
  config : EventQueueConfig
}.

Definition set_queue (q : list Context) (this : EventQueue) : EventQueue :=
  mkEventQueue q (archive this) (flushing this) (config this).

Definition set_flushing (b : bool) (this : EventQueue) : EventQueue :=
  mkEventQueue (queue this) (archive this) b (config this).

Definition push_extension (x : Extension) (this : EventQueue) : EventQueue :=
  mkEventQueue (queue this) (archive this) (flushing this)
    (mkEventQueueConfig (extensions (config this) ++ [x])).

(** The state of a [flush()] call between two iterations of its loop: the
    engine, the world and the local [flushed]. *)
Definition FlushState : Type := EventQueue * World * list Context.

Definition of_type (t : string) (p : Extension) : bool := String.eqb (type p) t.

Section Engine.

(** The helpers imported from [./delivery]. *)
Variable attempt : Context -> Extension -> Async (Context + Error).
Variable ensure : Context -> Extension -> Async (option Context).

Definition constructor (cfg : EventQueueConfig) : EventQueue :=
  mkEventQueue [] [] false cfg.

Definition init (cfg : EventQueueConfig) : Async EventQueue :=
  fun w =>
    let this := constructor cfg in
    let '(w1, ctx) := Ctx.system w in
    let loaders := map (fun xt => load xt ctx) (extensions (config this)) in
    (_ <- await_all loaders ;; ret this)%async w1.

Definition register (extension : Extension) (this : EventQueue) (w : World)
    : EventQueue * World * Outcome unit :=
  let this1 := push_extension extension this in
  let '(w1, ctx) := Ctx.system w in
  let '(w2, o) := load extension ctx w1 in
  (this1, w2, o).

Definition scheduleFlush (this : EventQueue) (w : World) : World :=
  if flushing this then w else setTimeout w.

Definition dispatch (ctx : Context) (this : EventQueue) (w : World)
    : EventQueue * World * Outcome (option Context) :=
  let w1 := Ctx.log ctx "debug" "Dispatching" w in
  let w2 := Ctx.stats_increment ctx "message_dispatched" w1 in
  let this1 := set_queue (queue this ++ [ctx]) this in
  let w3 := scheduleFlush this1 w2 in
  (this1, w3, Resolved (Some ctx)).

Definition isReady (this : EventQueue) (w : World) : bool :=
  forallb (fun p => isLoaded p w) (extensions (config this)).


(** The loop over the [before] plugins. *)
Fixpoint run_before (before : list Extension) (ctx : Context) : Async Context :=
  match before with
  | [] => ret ctx
  | beforeWare :: rest =>
      (temp <- ensure ctx beforeWare ;;
       match temp with
       | Some c => run_before rest c
       | None => run_before rest ctx
       end)%async
  end.

(** The loop over the [enrichment] plugins. *)
Fixpoint run_enrichment (enrichment : list Extension) (ctx : Context) : Async Context :=
  match enrichment with
  | [] => ret ctx
  | enrichmentWare :: rest =>
      (temp <- attempt ctx enrichmentWare ;;
       match temp with
       | inl c => run_enrichment rest c
       | inr _ => run_enrichment rest ctx
       end)%async
  end.

Definition flushOne (this : EventQueue) (ctx : Context) : Async (option Context) :=
  fun w =>
    if negb (isReady this w) then (w, Resolved None)
    else
      let before := List.filter (of_type "before") (extensions (config this)) in
      let enrichment := List.filter (of_type "enrichment") (extensions (config this)) in
      let destinations := List.filter (of_type "destination") (extensions (config this)) in
      (ctx1 <- run_before before ctx ;;
       ctx2 <- run_enrichment enrichment ctx1 ;;
       tell (Ctx.seal ctx2) ;;;
       let deliveryAttempts := map (fun destination => attempt ctx2 destination) destinations in
       _ <- await_all deliveryAttempts ;;
       tell (Ctx.stats_increment ctx2 "message_delivered") ;;;
       ret (Some ctx2))%async w.

(** One iteration of the loop of [flush]. *)
Definition flush_action (s : FlushState) : FlushState :=
  let '(this, w, flushed) := s in
  let start := getTime w in
  match queue this with
  | [] => s
  | ctx :: rest =>
      let this1 := set_queue rest this in
      match flushOne this1 ctx w with
      | (w1, Resolved _) =>
          let done := getTime w1 - start in
          let w2 := Ctx.stats_gauge ctx "delivered" done w1 in
          let w3 := Ctx.log ctx "debug" "Delivered" w2 in
          (this1, w3, flushed ++ [ctx])
      | (w1, Rejected _) =>
          let w2 := Ctx.log ctx "error" "Failed to deliver" w1 in
          let w3 := Ctx.stats_increment ctx "delivery_failed" w2 in
          (set_queue (queue this1 ++ [ctx]) this1, w3, flushed)
      end
  end.

Definition flush_condition (s : FlushState) : bool :=
  let '(this, _, _) := s in (0 <? length (queue this))%nat.

(** The loop of [flush], taken up at the state [s]. *)
Definition flush_loop (fuel : nat) (s : FlushState) : option FlushState :=
  pWhile fuel flush_condition flush_action s.

(** [flush()]: [None] when the loop is still running after [fuel]
    iterations. *)
Definition flush (fuel : nat) (this : EventQueue) (w : World) : option FlushState :=
  flush_loop fuel (this, w, []).

(** The callback armed by [scheduleFlush], once its timer fires. *)
Definition timer_callback (fuel : nat) (this : EventQueue) (w : World)
    : option (EventQueue * World) :=
  let this1 := set_flushing true this in
  match flush fuel this1 w with
  | Some (this2, w2, _) =>
      let this3 := set_flushing false this2 in
      Some (this3, scheduleFlush this3 w2)
  | None => None
  end.

(** A run of [dispatch] calls, one per event, with nothing in between. *)
Fixpoint dispatch_all (ctxs : list Context) (this : EventQueue) (w : World)
    : EventQueue * World * list (Outcome (option Context)) :=
  match ctxs with
  | [] => (this, w, [])
  | ctx :: rest =>
      let '(this1, w1, o) := dispatch ctx this w in
      let '(this2, w2, os) := dispatch_all rest this1 w1 in
      (this2, w2, o :: os)
  end.

(** Every pending event eventually succeeds: the head of the buffer is
    attempted; a success removes it, a failure moves it to the tail, and
    the buffer is empty after finitely many attempts. *)
Inductive Settles : EventQueue -> World -> Prop :=
| Settles_nil this w :
    queue this = [] -> Settles this w
| Settles_success this w ctx rest w1 r :
    queue this = ctx :: rest ->
    flushOne (set_queue rest this) ctx w = (w1, Resolved r) ->
    Settles (set_queue rest this)
      (Ctx.log ctx "debug" "Delivered"
         (Ctx.stats_gauge ctx "delivered" (getTime w1 - getTime w) w1)) ->
    Settles this w
| Settles_retry this w ctx rest w1 e :
    queue this = ctx :: rest ->
    flushOne (set_queue rest this) ctx w = (w1, Rejected e) ->
    Settles (set_queue (rest ++ [ctx]) this)
      (Ctx.stats_increment ctx "delivery_failed"
         (Ctx.log ctx "error" "Failed to deliver" w1)) ->
    Settles this w.

(** What can happen to an engine during its life. *)
Inductive step : EventQueue * World -> EventQueue * World -> Prop :=
| step_dispatch ctx this w this' w' o :
    dispatch ctx this w = (this', w', o) -> step (this, w) (this', w')
| step_register x this w this' w' o :
    register x this w = (this', w', o) -> step (this, w) (this', w')
| step_flushOne ctx this w w' o :
    flushOne this ctx w = (w', o) -> step (this, w) (this, w')
| step_flush_action this w flushed this' w' flushed' :
    flush_action (this, w, flushed) = (this', w', flushed') ->
    step (this, w) (this', w')
| step_flush fuel this w this' w' flushed :
    flush fuel this w = Some (this', w', flushed) -> step (this, w) (this', w')
| step_timer fuel this w this' w' :
    timer_callback fuel this w = Some (this', w') -> step (this, w) (this', w').

(** The states an engine built by [init] can be in. *)
Inductive reachable (cfg : EventQueueConfig) (w0 : World) : EventQueue * World -> Prop :=
| reachable_init this w :
    init cfg w0 = (w, Resolved this) -> reachable cfg w0 (this, w)
| reachable_step s s' :
    reachable cfg w0 s -> step s s' -> reachable cfg w0 s'.

End Engine.

(** The world after the events of [q] went through the readiness gate
    unattempted and were reported delivered. *)
Definition passed_over (q : list Context) (w : World) : World :=
  fold_left
    (fun w ctx => Ctx.log ctx "debug" "Delivered" (Ctx.stats_gauge ctx "delivered" 0 w))
    q w.

(** ** Vocabulary for the delivery scenarios *)

Definition always_loaded (x : Extension) : Prop := forall w, isLoaded x w = true.

(** The plugin's [process] rejects whatever it is handed. *)
Definition always_fails (x : Extension) : Prop :=
  forall p, exists err, process x p = Fail err.

(** The plugin's [process] hands back a context for every event, open or
    sealed. *)
Definition always_succeeds (x : Extension) : Prop :=
  forall ctx w, is_Some (heap w !! ctx) ->
    exists w' c', Delivery.attempt ctx x w = (w', Resolved (inl c')).

(** From [w] to [w']: objects were only added, sealed objects are as they
    were, and no time has passed. *)
Definition grows (w w' : World) : Prop :=
  (length (heap w) <= length (heap w'))%nat /\
  (forall c s, heap w !! c = Some s -> sealed s = true -> heap w' !! c = Some s) /\
  clock w' = clock w.

(** The journal entries of calling each plugin of [xs] once, in order, on
    some context. *)
Definition calls_of (xs : list Extension) (j : list Action) : Prop :=
  Forall2 (fun a x => exists ctx, a = Process (name x) ctx) j xs.

(** Modelled from the spec: the absent [attempt] of [./delivery] as sections
    4.4(6) and 7(d) have it at the destination stage.  The spec gives the
    helper two faces: a failing enrichment plugin is absorbed (4.4(4)), a
    failing destination plugin propagates as the failure of the pipeline.
    This reading keeps both: the error comes back as a value, except for a
    destination plugin, where the promise rejects. *)
Definition attempt_propagating (ctx : Context) (extension : Extension)
    : Async (Context + Error) :=
  fun w =>
    match Delivery.attempt ctx extension w with
    | (w1, Resolved (inr err)) =>
        if of_type "destination" extension then (w1, Rejected err)
        else (w1, Resolved (inr err))
    | settled => settled
    end.

(** ** Plugins used to exercise the engine *)

(** A plugin that is loaded from the start. *)
Definition plugin (name type : string) (process : string -> Step) : Extension :=
  mkExtension name type (fun _ => true) (fun _ => ret tt) process.

Definition failing (name type : string) : Extension :=
  plugin name type (fun _ => Fail "boom").

Definition succeeding (name type : string) : Extension :=
  plugin name type (fun _ => Keep).

(** A plugin that never reports itself loaded. *)
Definition unloaded (name type : string) : Extension :=
  mkExtension name type (fun _ => false) (fun _ => ret tt) (fun _ => Keep).

(** A plugin that becomes loaded when its [load] completes. *)
Definition lazy (name type : string) : Extension :=
  mkExtension name type
    (fun w => bool_decide (name ∈ loaded w))
    (fun _ => tell (fun w => set_loaded (name :: loaded w) w))
    (fun _ => Keep).

(** A [before] plugin that rewrites the payload at each visit. *)
Definition stamping (name : string) : Extension :=
  plugin name "before"
    (fun p => if String.eqb p "new" then Update "seen"
              else if String.eqb p "seen" then Update "known"
              else Keep).

(** A [before] plugin that refuses one payload. *)
Definition refusing (name payload : string) : Extension :=
  plugin name "before"
    (fun p => if String.eqb p payload then Fail "refused" else Keep).

Definition empty_world : World := mkWorld [] [] 0 0 [].

(** A world holding one open event with the given payload, at reference 0. *)
Definition one_event (payload : string) : World :=
  fst (Ctx.create payload empty_world).

Definition engine (xs : list Extension) : EventQueue :=
  constructor (mkEventQueueConfig xs).

(** What a finished [flush()] shows: the list it returns, the pending buffer
    and the journal it leaves. *)
Definition returned (r : option FlushState) : option (list Context) :=
  snd <$> r.

Definition pending_after (r : option FlushState) : option (list Context) :=
  (fun s : FlushState => queue (fst (fst s))) <$> r.

Definition journal_after (r : option FlushState) : option (list Action) :=
  (fun s : FlushState => journal (snd (fst s))) <$> r.

(** An engine over the plugins [xs] right after one event, of reference 0
    and payload [payload], was dispatched to it. *)
Definition dispatched_one (xs : list Extension) (payload : string) : EventQueue * World :=
  fst (dispatch 0%nat (engine xs) (one_event payload)).

(** A plugin whose [load] rejects and that never reports itself loaded. *)
Definition broken (name type : string) : Extension :=
  mkExtension name type (fun _ => false) (fun _ w => (w, Rejected "load failed"))
    (fun _ => Keep).

(** ** Facts that hold whatever the delivery helpers do *)

Lemma set_queue_queue (this : EventQueue) : set_queue (queue this) this = this.
Proof. by destruct this. Qed.

Lemma pWhile_more_fuel {S : Type} (cond : S -> bool) (act : S -> S) (n m : nat) (s r : S) :
  (n <= m)%nat -> pWhile n cond act s = Some r -> pWhile m cond act s = Some r.
Proof.
  revert m s. induction n as [|n IH]; intros m s Hle H; [discriminate|].
  destruct m as [|m]; [lia|]. simpl in *.
  destruct (cond s); [|exact H]. apply IH; [lia|exact H].
Qed.

Lemma pWhile_exit {S : Type} (cond : S -> bool) (act : S -> S) (n : nat) (s r : S) :
  pWhile n cond act s = Some r -> cond r = false.
Proof.
  revert s. induction n as [|n IH]; intros s H; [discriminate|]. simpl in H.
  destruct (cond s) eqn:E; [by eapply IH|]. by inversion H; subst.
Qed.

Lemma pWhile_invariant {S : Type} (P : S -> Prop) (cond : S -> bool) (act : S -> S) :
  (forall s, P s -> cond s = true -> P (act s)) ->
  forall (n : nat) (s r : S), P s -> pWhile n cond act s = Some r -> P r.
Proof.
  intros Hact n. induction n as [|n IH]; intros s r HP H; [discriminate|]. simpl in H.
  destruct (cond s) eqn:E; [|by inversion H; subst].
  eapply IH; [|exact H]. by apply Hact.
Qed.

Section EngineFacts.

Variable attempt : Context -> Extension -> Async (Context + Error).
Variable ensure : Context -> Extension -> Async (option Context).


Lemma flushOne_set_queue (q : list Context) (this : EventQueue) (ctx : Context) (w : World) :
  flushOne attempt ensure (set_queue q this) ctx w = flushOne attempt ensure this ctx w.
Proof. reflexivity. Qed.

(** What one iteration does, by the outcome of the attempt. *)
Lemma flush_action_success this w flushed ctx rest w1 r :
  queue this = ctx :: rest ->
  flushOne attempt ensure this ctx w = (w1, Resolved r) ->
  flush_action attempt ensure (this, w, flushed) =
    (set_queue rest this,
     Ctx.log ctx "debug" "Delivered"
       (Ctx.stats_gauge ctx "delivered" (getTime w1 - getTime w) w1),
     flushed ++ [ctx]).
Proof.
  intros Hq H. unfold flush_action. rewrite Hq.
  rewrite flushOne_set_queue, H. reflexivity.
Qed.

Lemma flush_action_failure this w flushed ctx rest w1 e :
  queue this = ctx :: rest ->
  flushOne attempt ensure this ctx w = (w1, Rejected e) ->
  flush_action attempt ensure (this, w, flushed) =
    (set_queue (rest ++ [ctx]) this,
     Ctx.stats_increment ctx "delivery_failed"
       (Ctx.log ctx "error" "Failed to deliver" w1),
     flushed).
Proof.
  intros Hq H. unfold flush_action. rewrite Hq.
  rewrite flushOne_set_queue, H. reflexivity.
Qed.

(** An iteration changes the buffer and nothing else of the engine. *)
Lemma flush_action_frame (s : FlushState) :
  exists q, fst (fst (flush_action attempt ensure s)) = set_queue q (fst (fst s)).
Proof.
  destruct s as [[this w] flushed]. unfold flush_action.
  destruct (queue this) as [|ctx rest] eqn:Hq.
  - exists (queue this). simpl. by rewrite set_queue_queue.
  - destruct (flushOne _ _ _ _ _) as [w1 [r|e]]; simpl; eauto.
Qed.

Lemma loop_frame (fuel : nat) (s r : FlushState) :
  flush_loop attempt ensure fuel s = Some r ->
  exists q, fst (fst r) = set_queue q (fst (fst s)).
Proof.
  unfold flush_loop. intros H.
  apply (pWhile_invariant
           (fun r => exists q, fst (fst r) = set_queue q (fst (fst s)))
           flush_condition (flush_action attempt ensure)) with (n := fuel) (s := s); [| |exact H].
  - intros s0 [q Hq] _. destruct (flush_action_frame s0) as [q' Hq'].
    exists q'. by rewrite Hq', Hq.
  - exists (queue (fst (fst s))). by rewrite set_queue_queue.
Qed.

(** [flush] returns only with an empty buffer. *)
Lemma loop_returns_empty (fuel : nat) (s : FlushState) this' w' flushed' :
  flush_loop attempt ensure fuel s = Some (this', w', flushed') -> queue this' = [].
Proof.
  unfold flush_loop. intros H. apply pWhile_exit in H. simpl in H.
  destruct (queue this'); [done|discriminate].
Qed.

(** Events are neither lost nor duplicated by the loop. *)
Lemma flush_action_perm (s : FlushState) :
  snd (flush_action attempt ensure s) ++ queue (fst (fst (flush_action attempt ensure s)))
  ≡ₚ snd s ++ queue (fst (fst s)).
Proof.
  destruct s as [[this w] flushed]. unfold flush_action.
  destruct (queue this) as [|ctx rest] eqn:Hq; simpl.
  - by rewrite Hq.
  - destruct (flushOne _ _ _ _ _) as [w1 [r|e]]; simpl.
    + rewrite Hq, <- app_assoc. reflexivity.
    + rewrite Hq. apply Permutation_app_head. symmetry. apply Permutation_cons_append.
Qed.

Lemma loop_perm (fuel : nat) (s r : FlushState) :
  flush_loop attempt ensure fuel s = Some r ->
  snd r ≡ₚ snd s ++ queue (fst (fst s)).
Proof.
  intros H. pose proof H as Hret. unfold flush_loop in H.
  assert (Hinv : snd r ++ queue (fst (fst r)) ≡ₚ snd s ++ queue (fst (fst s))).
  { apply (pWhile_invariant
             (fun r => snd r ++ queue (fst (fst r)) ≡ₚ snd s ++ queue (fst (fst s)))
             flush_condition (flush_action attempt ensure)) with (n := fuel) (s := s); [|done|exact H].
    intros s0 Hs0 _. by rewrite flush_action_perm. }
  destruct r as [[this' w'] fl]. pose proof (loop_returns_empty _ _ _ _ _ Hret) as Hq.
  simpl in *. by rewrite Hq, app_nil_r in Hinv.
Qed.

(** *** The empty buffer *)

(** C7: [flush()] on an engine whose pending buffer is empty returns the
    empty list, without error, and leaves the engine (buffer, archive,
    plugin configuration) and the world as they were. *)
Theorem flush_empty_buffer (fuel : nat) (this : EventQueue) (w : World) :
  queue this = [] ->
  flush attempt ensure (S fuel) this w = Some (this, w, []).
Proof.
  intros Hq. unfold flush, flush_loop. simpl. by rewrite Hq.
Qed.

(** *** The archive *)

Lemma step_archive (s s' : EventQueue * World) :
  step attempt ensure s s' -> archive (fst s') = archive (fst s).
Proof.
  intros H. destruct H as
    [ctx this w this' w' o H | x this w this' w' o H | ctx this w w' o H
    | this w flushed this' w' flushed' H | fuel this w this' w' flushed H
    | fuel this w this' w' H]; simpl.
  - unfold dispatch in H. by inversion H; subst.
  - unfold register in H. destruct (Ctx.system w) as [w1 c].
    destruct (load x c w1) as [w2 o']. by inversion H; subst.
  - reflexivity.
  - destruct (flush_action_frame (this, w, flushed)) as [q Hq].
    rewrite H in Hq. simpl in Hq. by subst.
  - destruct (loop_frame _ _ _ H) as [q Hq]. simpl in Hq. by subst.
  - unfold timer_callback in H.
    destruct (flush attempt ensure fuel (set_flushing true this) w)
      as [[[this2 w2] fl]|] eqn:E; [|discriminate].
    destruct (loop_frame _ _ _ E) as [q Hq]. simpl in Hq.
    inversion H; subst. reflexivity.
Qed.

(** C9: the archive is never populated.  [init] builds it empty and no
    operation of the engine (dispatch, register, flushOne, an iteration of
    the flush loop, a whole flush, the timer callback) changes it, so it
    is empty in every state the engine can reach; in particular no event
    is in the pending buffer and in the archive at once. *)
Theorem archive_never_populated (cfg : EventQueueConfig) (w0 : World)
    (s : EventQueue * World) :
  reachable attempt ensure cfg w0 s ->
  archive (fst s) = [] /\
  forall ctx : Context, ~ (ctx ∈ queue (fst s) /\ ctx ∈ archive (fst s)).
Proof.
  intros H.
  assert (Ha : archive (fst s) = []).
  { induction H as [this w H | s s' _ IH Hstep].
    - unfold init in H. destruct (Ctx.system w0) as [w1 c].
      unfold bind in H. destruct (await_all _ w1) as [w2 [l|e]]; [|discriminate].
      by inversion H; subst.
    - by rewrite (step_archive _ _ Hstep). }
  split; [exact Ha|]. intros ctx [_ Hin]. rewrite Ha in Hin. by apply elem_of_nil in Hin.
Qed.

(** *** The readiness gate *)

Lemma isReady_not_loaded (this : EventQueue) (w : World) (p : Extension) :
  p ∈ extensions (config this) -> isLoaded p w = false -> isReady this w = false.
Proof.
  intros Hin Hp. unfold isReady. apply not_true_is_false. intros H.
  rewrite forallb_forall in H. apply list_elem_of_In in Hin.
  specialize (H p Hin). congruence.
Qed.

Lemma flushOne_not_ready (this : EventQueue) (ctx : Context) (w : World) :
  isReady this w = false -> flushOne attempt ensure this ctx w = (w, Resolved None).
Proof. intros H. unfold flushOne. by rewrite H. Qed.

Lemma loop_not_ready (p : Extension) (q : list Context) :
  forall (this : EventQueue) (w : World) (flushed : list Context) (fuel : nat),
    p ∈ extensions (config this) ->
    (forall w', isLoaded p w' = false) ->
    queue this = q ->
    (length q < fuel)%nat ->
    flush_loop attempt ensure fuel (this, w, flushed) =
      Some (set_queue [] this, passed_over q w, flushed ++ q).
Proof.
  unfold flush_loop.
  induction q as [|ctx rest IH]; intros this w flushed fuel Hin Hp Hq Hfuel.
  - destruct fuel as [|fuel]; [simpl in Hfuel; lia|]. simpl. rewrite Hq. simpl.
    rewrite app_nil_r, <- Hq. by rewrite set_queue_queue.
  - destruct fuel as [|fuel]; [simpl in Hfuel; lia|].
    cbn [pWhile]. unfold flush_condition at 1. rewrite Hq. cbn [length Nat.ltb Nat.leb].
    rewrite (flush_action_success this w flushed ctx rest w None Hq).
    2:{ apply flushOne_not_ready. by apply isReady_not_loaded with p. }
    rewrite (IH (set_queue rest this)); [|done|done|done|simpl in Hfuel; lia].
    rewrite Z.sub_diag, <- app_assoc. reflexivity.
Qed.

(** C3: when some registered plugin reports itself not loaded, every event
    met by [flush()] skips the pipeline: [flushOne] hands back [undefined]
    with the world untouched (no helper is called, so no plugin processes
    anything), and the flush loop counts the event as a success: it is in
    the returned list, it has left the pending buffer, which ends empty,
    and it is not put back. *)
Theorem not_ready_counts_as_flushed (p : Extension) (this : EventQueue) (w : World)
    (fuel : nat) :
  p ∈ extensions (config this) ->
  (forall w', isLoaded p w' = false) ->
  (length (queue this) < fuel)%nat ->
  (forall ctx w', flushOne attempt ensure this ctx w' = (w', Resolved None)) /\
  flush attempt ensure fuel this w = Some (set_queue [] this, passed_over (queue this) w, queue this).
Proof.
  intros Hin Hp Hfuel. split.
  - intros ctx w'. apply flushOne_not_ready. by apply isReady_not_loaded with p.
  - unfold flush. by rewrite (loop_not_ready p (queue this) this w [] fuel).
Qed.

(** *** Failure, retry and termination *)

(** C5, as the code has it: when the pipeline rejects for the event at the
    head of the buffer, that iteration logs the failure once, increments
    "delivery_failed" once and puts the event back at the tail of the
    pending buffer.  The retry is not left to a later flush: the same
    [flush()] call goes on looping over the buffer that now holds the
    event, and when it returns the event is among the flushed ones, so it
    was attempted again, with success, within that call. *)
Theorem failed_event_requeued_and_retried (this : EventQueue) (w w1 : World)
    (ctx : Context) (rest : list Context) (e : Error) :
  queue this = ctx :: rest ->
  flushOne attempt ensure this ctx w = (w1, Rejected e) ->
  let w2 := Ctx.stats_increment ctx "delivery_failed"
              (Ctx.log ctx "error" "Failed to deliver" w1) in
  flush_action attempt ensure (this, w, []) = (set_queue (rest ++ [ctx]) this, w2, []) /\
  journal w2 =
    journal w1 ++ [Log ctx "error" "Failed to deliver"; Increment ctx "delivery_failed"] /\
  heap w2 = heap w1 /\
  (forall fuel, flush attempt ensure (S fuel) this w = flush_loop attempt ensure fuel (set_queue (rest ++ [ctx]) this, w2, [])) /\
  (forall fuel this' w' flushed,
      flush attempt ensure fuel this w = Some (this', w', flushed) -> ctx ∈ flushed).
Proof.
  intros Hq H w2.
  pose proof (flush_action_failure this w [] ctx rest w1 e Hq H) as Hact.
  repeat split.
  - exact Hact.
  - unfold w2. simpl. by rewrite <- app_assoc.
  - intros fuel. unfold flush, flush_loop. cbn [pWhile]. unfold flush_condition at 1.
    rewrite Hq. cbn [length Nat.ltb Nat.leb]. by rewrite Hact.
  - intros fuel this' w' flushed Hret. apply loop_perm in Hret. simpl in Hret.
    rewrite Hret, Hq. apply list_elem_of_here.
Qed.

Lemma loop_settles (fuel : nat) :
  forall (this : EventQueue) (w : World) (flushed : list Context) (r : FlushState),
    flush_loop attempt ensure fuel (this, w, flushed) = Some r -> Settles attempt ensure this w.
Proof.
  unfold flush_loop.
  induction fuel as [|fuel IH]; intros this w flushed r H; [discriminate|].
  cbn [pWhile] in H. unfold flush_condition at 1 in H.
  destruct (queue this) as [|ctx rest] eqn:Hq.
  - by apply Settles_nil.
  - cbn [length Nat.ltb Nat.leb] in H.
    destruct (flushOne attempt ensure this ctx w) as [w1 [v|e]] eqn:E.
    + rewrite (flush_action_success this w flushed ctx rest w1 v Hq E) in H.
      eapply Settles_success; [exact Hq|exact E|]. eapply IH, H.
    + rewrite (flush_action_failure this w flushed ctx rest w1 e Hq E) in H.
      eapply Settles_retry; [exact Hq|exact E|]. eapply IH, H.
Qed.

Lemma settles_loop (this : EventQueue) (w : World) :
  Settles attempt ensure this w ->
  forall flushed, exists fuel r, flush_loop attempt ensure fuel (this, w, flushed) = Some r.
Proof.
  unfold flush_loop.
  induction 1 as [this w Hq | this w ctx rest w1 v Hq E _ IH
                 | this w ctx rest w1 e Hq E _ IH]; intros flushed.
  - exists 1%nat, (this, w, flushed). simpl. by rewrite Hq.
  - destruct (IH (flushed ++ [ctx])) as (fuel & r & Hr).
    exists (S fuel), r. cbn [pWhile]. unfold flush_condition at 1.
    rewrite Hq. cbn [length Nat.ltb Nat.leb].
    by rewrite (flush_action_success this w flushed ctx rest w1 v Hq E).
  - destruct (IH flushed) as (fuel & r & Hr).
    exists (S fuel), r. cbn [pWhile]. unfold flush_condition at 1.
    rewrite Hq. cbn [length Nat.ltb Nat.leb].
    by rewrite (flush_action_failure this w flushed ctx rest w1 e Hq E).
Qed.

Lemma loop_forever (ctx : Context) (fuel : nat) :
  forall (this : EventQueue) (w : World) (flushed : list Context),
    ctx ∈ queue this ->
    (forall w0, exists w1 e, flushOne attempt ensure this ctx w0 = (w1, Rejected e)) ->
    flush_loop attempt ensure fuel (this, w, flushed) = None.
Proof.
  unfold flush_loop.
  induction fuel as [|fuel IH]; intros this w flushed Hin Hfail; [reflexivity|].
  cbn [pWhile]. unfold flush_condition at 1.
  destruct (queue this) as [|c0 rest] eqn:Hq; [by apply elem_of_nil in Hin|].
  cbn [length Nat.ltb Nat.leb].
  destruct (flushOne attempt ensure this c0 w) as [w1 [v|e]] eqn:E.
  - rewrite (flush_action_success this w flushed c0 rest w1 v Hq E).
    apply IH; [|exact Hfail].
    apply elem_of_cons in Hin as [->|Hin]; [|exact Hin].
    destruct (Hfail w) as (w1' & e & He). congruence.
  - rewrite (flush_action_failure this w flushed c0 rest w1 e Hq E).
    apply IH; [|exact Hfail]. simpl.
    apply elem_of_app.
    apply elem_of_cons in Hin as [->|Hin]; [right; apply list_elem_of_here|by left].
Qed.

(** C10: [flush()] returns exactly when every pending event eventually
    succeeds (passing the readiness gate unattempted counts as a
    success); when it returns the buffer is empty and the flushed list
    holds the events that were pending, each once.  A failed event goes
    back onto the queue that the loop's condition inspects, so one
    pending event whose attempt fails on every try keeps the call looping
    for ever: no number of iterations lets it return. *)
Theorem flush_terminates_iff_settles (this : EventQueue) (w : World) :
  ((exists fuel r, flush attempt ensure fuel this w = Some r) <-> Settles attempt ensure this w) /\
  (forall fuel this' w' flushed,
      flush attempt ensure fuel this w = Some (this', w', flushed) ->
      queue this' = [] /\ flushed ≡ₚ queue this) /\
  (forall ctx,
      ctx ∈ queue this ->
      (forall w0, exists w1 e, flushOne attempt ensure this ctx w0 = (w1, Rejected e)) ->
      forall fuel, flush attempt ensure fuel this w = None).
Proof.
  split; [split|split].
  - intros (fuel & r & H). eapply loop_settles, H.
  - intros H. apply (settles_loop _ _ H []).
  - intros fuel this' w' flushed H. split.
    + eapply loop_returns_empty, H.
    + apply loop_perm in H. exact H.
  - intros ctx Hin Hfail fuel. by apply loop_forever with ctx.
Qed.

End EngineFacts.

(** ** Dispatch *)

(** C6: after any run of [dispatch] calls with no flush in between, the
    pending buffer is what it was followed by the dispatched events in the
    order of the calls (exactly those events when it started empty); every
    call resolves, never rejects, and resolves with the very context it was
    given.  Nothing else of the engine changes; each call leaves a debug
    line and a "message_dispatched" increment on its event. *)
Theorem dispatch_all_fifo (ctxs : list Context) (this : EventQueue) (w : World) :
  let '(this', w', os) := dispatch_all ctxs this w in
  queue this' = queue this ++ ctxs /\
  os = map (fun ctx => Resolved (Some ctx)) ctxs /\
  archive this' = archive this /\
  config this' = config this /\
  flushing this' = flushing this /\
  heap w' = heap w /\
  journal w' = journal w ++
    flat_map (fun ctx => [Log ctx "debug" "Dispatching"; Increment ctx "message_dispatched"]) ctxs.
Proof.
  revert this w. induction ctxs as [|ctx rest IH]; intros this w.
  - simpl. by rewrite !app_nil_r.
  - cbn [dispatch_all]. unfold dispatch.
    set (this1 := set_queue (queue this ++ [ctx]) this).
    set (w1 := scheduleFlush this1 _).
    specialize (IH this1 w1).
    destruct (dispatch_all rest this1 w1) as [[this2 w2] os].
    destruct IH as (Hq & Hos & Ha & Hc & Hf & Hh & Hj).
    assert (Hw1 : heap w1 = heap w /\
                  journal w1 = journal w ++
                    [Log ctx "debug" "Dispatching"; Increment ctx "message_dispatched"]).
    { unfold w1, scheduleFlush. destruct (flushing this1); simpl;
        by rewrite <- app_assoc. }
    destruct Hw1 as [Hh1 Hj1].
    repeat split.
    + rewrite Hq. simpl. by rewrite <- app_assoc.
    + by rewrite Hos.
    + by rewrite Ha.
    + by rewrite Hc.
    + by rewrite Hf.
    + by rewrite Hh.
    + rewrite Hj, Hj1. simpl. by rewrite <- app_assoc.
Qed.

(** ** The modelled delivery helpers *)

Lemma grows_refl (w : World) : grows w w.
Proof. by repeat split. Qed.

Lemma grows_trans (w1 w2 w3 : World) : grows w1 w2 -> grows w2 w3 -> grows w1 w3.
Proof.
  intros (Hl1 & Hs1 & Hc1) (Hl2 & Hs2 & Hc2). repeat split.
  - lia.
  - intros c s H Hs. apply Hs2; [|done]. by apply Hs1.
  - congruence.
Qed.

(** [attempt] calls the plugin once, never rejects, and leaves sealed
    objects alone. *)
Lemma attempt_spec (ctx : Context) (x : Extension) (w w' : World)
    (o : Outcome (Context + Error)) :
  Delivery.attempt ctx x w = (w', o) ->
  journal w' = journal w ++ [Process (name x) ctx] /\
  (exists v, o = Resolved v) /\
  grows w w' /\
  (forall c', ctx < length (heap w) -> o = Resolved (inl c') -> c' < length (heap w'))%nat.
Proof.
  unfold Delivery.attempt, Ctx.payload_of. simpl.
  destruct (heap w !! ctx) as [s|] eqn:Hs; simpl.
  - destruct (process x (event s)) as [err| |p'|p'].
    + intros [= <- <-]. repeat split; eauto. discriminate.
    + intros [= <- <-]. repeat split; eauto. by intros c' Hv [= <-].
    + unfold Ctx.write. simpl. rewrite Hs. destruct (sealed s) eqn:Hsealed.
      * intros [= <- <-]. repeat split; eauto. discriminate.
      * intros [= <- <-]. repeat split; simpl; eauto.
        -- by rewrite length_insert.
        -- intros c s' H Hs'. rewrite list_lookup_insert_ne; [done|].
           intros ->. pose proof (eq_trans (eq_sym Hs) H) as E.
           inversion E; subst. congruence.
        -- intros c' Hv [= <-]. by rewrite length_insert.
    + intros [= <- <-]. repeat split; simpl; eauto.
      * rewrite length_app. lia.
      * intros c s' H Hs'. by apply lookup_app_l_Some.
      * intros c' Hv [= <-]. rewrite length_app. simpl. lia.
  - intros [= <- <-]. repeat split; eauto. discriminate.
Qed.

Lemma attempt_of_failing (ctx : Context) (x : Extension) (w : World) :
  always_fails x ->
  exists err,
    Delivery.attempt ctx x w = (record (Process (name x) ctx) w, Resolved (inr err)).
Proof.
  intros Hx. unfold Delivery.attempt, Ctx.payload_of. simpl.
  destruct (heap w !! ctx) as [s|]; simpl; [|eauto].
  destruct (Hx (event s)) as [err ->]. eauto.
Qed.

Lemma ensure_of_failing (ctx : Context) (x : Extension) (w : World) :
  always_fails x ->
  exists err,
    Delivery.ensure ctx x w = (record (Process (name x) ctx) w, Rejected err).
Proof.
  intros Hx. unfold Delivery.ensure.
  destruct (attempt_of_failing ctx x w Hx) as [err ->]. eauto.
Qed.

(** The destination stage: every plugin is called once with the same
    context, in order, and the joined promise resolves. *)
Lemma fan_out_spec (ctx : Context) (ds : list Extension) :
  forall w, exists w' l,
    await_all (map (fun d => Delivery.attempt ctx d) ds) w = (w', Resolved l) /\
    journal w' = journal w ++ map (fun d => Process (name d) ctx) ds /\
    grows w w'.
Proof.
  unfold await_all. induction ds as [|d ds IH]; intros w; simpl.
  - exists w, []. rewrite app_nil_r. split; [done|]. split; [done|apply grows_refl].
  - destruct (Delivery.attempt ctx d w) as [w1 o] eqn:E.
    destruct (attempt_spec _ _ _ _ _ E) as (Hj & [v ->] & Hg & _).
    destruct (IH w1) as (w2 & l & Hall & Hj2 & Hg2).
    destruct (start_all _ w1) as [w2' os]. injection Hall as -> Hos.
    exists w2, (v :: l). cbn [Promise_all]. rewrite Hos. split; [done|]. split.
    + rewrite Hj2, Hj, <- app_assoc. reflexivity.
    + by apply grows_trans with w1.
Qed.

Lemma is_sealed_lookup (ctx : Context) (w : World) (s : ContextState) :
  heap w !! ctx = Some s -> Ctx.is_sealed ctx w = sealed s.
Proof. intros H. unfold Ctx.is_sealed. by rewrite H. Qed.

Lemma payload_of_lookup (ctx : Context) (w : World) (s : ContextState) :
  heap w !! ctx = Some s -> Ctx.payload_of ctx w = Some (event s).
Proof. intros H. unfold Ctx.payload_of. by rewrite H. Qed.

Lemma seal_lookup (ctx : Context) (w : World) (st : ContextState) :
  heap w !! ctx = Some st ->
  heap (Ctx.seal ctx w) !! ctx = Some (mkContextState (event st) true).
Proof. intros H. simpl. by rewrite list_lookup_alter_eq, H. Qed.

Lemma calls_of_cons (x : Extension) (xs : list Extension) (ctx : Context) (j : list Action) :
  calls_of xs j -> calls_of (x :: xs) (Process (name x) ctx :: j).
Proof. intros H. constructor; [eauto|exact H]. Qed.

(** The enrichment loop: it always resolves, calls each plugin once and
    hands on a valid context. *)
Lemma run_enrichment_spec (xs : list Extension) :
  forall (ctx : Context) (w w' : World) (o : Outcome Context),
    run_enrichment Delivery.attempt xs ctx w = (w', o) ->
    exists c' j,
      o = Resolved c' /\
      journal w' = journal w ++ j /\ calls_of xs j /\
      grows w w' /\
      (ctx < length (heap w) -> c' < length (heap w'))%nat.
Proof.
  induction xs as [|x xs IH]; intros ctx w w' o H; simpl in H.
  - injection H as <- <-. exists ctx, []. rewrite app_nil_r.
    split_and!; try done; try constructor; try apply grows_refl.
  - unfold bind in H. destruct (Delivery.attempt ctx x w) as [w1 o1] eqn:E.
    destruct (attempt_spec _ _ _ _ _ E) as (Hj & [v ->] & Hg & Hv).
    assert (Hnext : exists c1, (ctx < length (heap w) -> c1 < length (heap w1))%nat /\
                      run_enrichment Delivery.attempt xs c1 w1 = (w', o)).
    { destruct v as [c1|err]; [exists c1|exists ctx]; (split; [|exact H]).
      - intros Hlt. apply (Hv c1 Hlt). reflexivity.
      - intros Hlt. destruct Hg as (Hl & _). lia. }
    destruct Hnext as (c1 & Hv1 & H1).
    destruct (IH _ _ _ _ H1) as (c' & j & -> & Hj' & Hcalls & Hg' & Hv').
    exists c', (Process (name x) ctx :: j). split_and!.
    + reflexivity.
    + rewrite Hj', Hj, <- app_assoc. reflexivity.
    + by apply calls_of_cons.
    + by apply grows_trans with w1.
    + intros Hlt. apply Hv'. apply Hv1. exact Hlt.
Qed.

(** The pre stage, when it goes through. *)
Lemma run_before_spec (xs : list Extension) :
  forall (ctx c' : Context) (w w' : World),
    run_before Delivery.ensure xs ctx w = (w', Resolved c') ->
    exists j,
      journal w' = journal w ++ j /\ calls_of xs j /\
      grows w w' /\
      (ctx < length (heap w) -> c' < length (heap w'))%nat.
Proof.
  induction xs as [|x xs IH]; intros ctx c' w w' H; simpl in H.
  - injection H as <- <-. exists []. rewrite app_nil_r.
    split_and!; try done; try constructor; try apply grows_refl.
  - unfold bind, Delivery.ensure in H.
    destruct (Delivery.attempt ctx x w) as [w1 o1] eqn:E.
    destruct (attempt_spec _ _ _ _ _ E) as (Hj & [v ->] & Hg & Hv).
    destruct v as [c1|err]; [|discriminate].
    destruct (IH _ _ _ _ H) as (j & Hj' & Hcalls & Hg' & Hv').
    exists (Process (name x) ctx :: j). split_and!.
    + rewrite Hj', Hj, <- app_assoc. reflexivity.
    + by apply calls_of_cons.
    + by apply grows_trans with w1.
    + intros Hlt. apply Hv'. apply (Hv c1 Hlt). reflexivity.
Qed.

Lemma calls_of_app (xs ys : list Extension) (j k : list Action) :
  calls_of xs j -> calls_of ys k -> calls_of (xs ++ ys) (j ++ k).
Proof. apply Forall2_app. Qed.

(** What [flushOne] does once the readiness gate and the pre stage are
    passed. *)
Lemma flushOne_delivers (this : EventQueue) (ctx c1 : Context) (w w1 : World) :
  isReady this w = true ->
  run_before Delivery.ensure
    (List.filter (of_type "before") (extensions (config this))) ctx w
    = (w1, Resolved c1) ->
  exists c' w2 w3,
    run_enrichment Delivery.attempt
      (List.filter (of_type "enrichment") (extensions (config this))) c1 w1
      = (w2, Resolved c') /\
    journal w3 = journal (Ctx.seal c' w2) ++
      map (fun d => Process (name d) c')
        (List.filter (of_type "destination") (extensions (config this))) /\
    grows (Ctx.seal c' w2) w3 /\
    flushOne Delivery.attempt Delivery.ensure this ctx w
    = (Ctx.stats_increment c' "message_delivered" w3, Resolved (Some c')).
Proof.
  intros Hready Hb.
  destruct (run_enrichment Delivery.attempt
              (List.filter (of_type "enrichment") (extensions (config this))) c1 w1)
    as [w2 o2] eqn:Ee.
  destruct (run_enrichment_spec _ _ _ _ _ Ee) as (c' & j & -> & _).
  destruct (fan_out_spec c'
              (List.filter (of_type "destination") (extensions (config this)))
              (Ctx.seal c' w2)) as (w3 & l & Hall & Hj3 & Hg3).
  exists c', w2, w3. split_and!; [reflexivity|exact Hj3|exact Hg3|].
  unfold flushOne. rewrite Hready. cbn [negb].
  unfold bind at 1. rewrite Hb.
  unfold bind at 1. rewrite Ee.
  unfold bind at 1. unfold tell at 1. unfold bind at 1. rewrite Hall.
  reflexivity.
Qed.

(** C8: within [flushOne], once the readiness gate and the pre stage are
    passed, the event is sealed right after the last enrichment plugin has
    run and before any destination plugin is attempted; every destination
    plugin is handed that same sealed context, and nothing after the seal
    changes its payload.  In the journal of the call: first the calls of
    the pre and enrichment plugins and nothing else, then the seal, then one
    call per destination plugin, all on the sealed context, then the
    "message_delivered" increment. *)
Theorem seal_between_enrichment_and_destinations (this : EventQueue)
    (ctx c1 : Context) (w w1 : World) :
  let before := List.filter (of_type "before") (extensions (config this)) in
  let enrichment := List.filter (of_type "enrichment") (extensions (config this)) in
  let destinations := List.filter (of_type "destination") (extensions (config this)) in
  (ctx < length (heap w))%nat ->
  isReady this w = true ->
  run_before Delivery.ensure before ctx w = (w1, Resolved c1) ->
  exists (c' : Context) (w2 w' : World) (j : list Action),
    run_enrichment Delivery.attempt enrichment c1 w1 = (w2, Resolved c') /\
    flushOne Delivery.attempt Delivery.ensure this ctx w = (w', Resolved (Some c')) /\
    journal w2 = journal w ++ j /\
    calls_of (before ++ enrichment) j /\
    journal w' = journal w2 ++
      Seal c' :: map (fun d => Process (name d) c') destinations ++
      [Increment c' "message_delivered"] /\
    Ctx.is_sealed c' w' = true /\
    Ctx.payload_of c' w' = Ctx.payload_of c' w2.
Proof.
  intros before enrichment destinations Hvalid Hready Hb.
  destruct (flushOne_delivers _ _ _ _ _ Hready Hb) as (c' & w2 & w3 & He & Hj3 & Hg3 & Hone).
  destruct (run_before_spec _ _ _ _ _ Hb) as (jb & Hjb & Hcb & Hgb & Hvb).
  destruct (run_enrichment_spec _ _ _ _ _ He) as (c2 & je & [= <-] & Hje & Hce & Hge & Hve).
  assert (Hc' : (c' < length (heap w2))%nat) by auto.
  destruct (lookup_lt_is_Some_2 (heap w2) c' Hc') as [s Hs].
  pose proof (seal_lookup c' w2 s Hs) as Hsealed.
  destruct Hg3 as (_ & Hkeep & _).
  pose proof (Hkeep _ _ Hsealed eq_refl) as Hs3.
  exists c', w2, (Ctx.stats_increment c' "message_delivered" w3), (jb ++ je). split_and!.
  - exact He.
  - exact Hone.
  - rewrite Hje, Hjb, <- app_assoc. reflexivity.
  - by apply calls_of_app.
  - simpl. rewrite Hj3. simpl. rewrite <- !app_assoc. reflexivity.
  - exact (is_sealed_lookup c' (Ctx.stats_increment c' "message_delivered" w3) _ Hs3).
  - rewrite (payload_of_lookup c' w2 _ Hs).
    exact (payload_of_lookup c' (Ctx.stats_increment c' "message_delivered" w3) _ Hs3).
Qed.

(** ** The delivery scenarios *)

Lemma isReady_all_loaded (this : EventQueue) (w : World) :
  Forall always_loaded (extensions (config this)) -> isReady this w = true.
Proof.
  intros H. unfold isReady. apply forallb_forall. intros x Hx.
  rewrite Forall_forall in H. apply H. by apply list_elem_of_In.
Qed.

Lemma of_type_eq (t : string) (x : Extension) : type x = t -> of_type t x = true.
Proof. intros <-. apply String.eqb_refl. Qed.

Lemma of_type_ne (t : string) (x : Extension) : type x <> t -> of_type t x = false.
Proof. intros H. by apply String.eqb_neq. Qed.

(** A failing pre plugin makes [flushOne] reject, whatever the world. *)
Lemma flushOne_pre_failing (p : Extension) (this : EventQueue) (ctx : Context) (w : World) :
  extensions (config this) = [p] ->
  type p = "before" -> always_loaded p -> always_fails p ->
  exists err,
    flushOne Delivery.attempt Delivery.ensure this ctx w
    = (record (Process (name p) ctx) w, Rejected err).
Proof.
  intros Hxs Ht Hl Hf. unfold flushOne.
  rewrite isReady_all_loaded by (rewrite Hxs; by repeat constructor).
  rewrite Hxs. cbn [negb List.filter]. rewrite (of_type_eq "before" p Ht).
  unfold bind at 1. cbn [run_before]. unfold bind at 1.
  destruct (ensure_of_failing ctx p w Hf) as [err ->]. eauto.
Qed.

(** C2, as the code has it: with a single pre plugin whose process always
    fails, one event dispatched, the first iteration of the loop of
    [flush()] calls the plugin, the failure aborts the pipeline for the
    event, the failure is logged and counted, and the event is back in the
    pending buffer, whose length is 1 again, with nothing flushed.  The
    call does not stop there: it retries the event at once and, as the
    plugin keeps failing, never returns a list. *)
Theorem pre_failure_requeues_and_retries (p : Extension) (ctx : Context) (w : World) :
  type p = "before" -> always_loaded p -> always_fails p ->
  let '(this1, w1, _) := dispatch ctx (engine [p]) w in
  queue this1 = [ctx] /\
  (exists err,
      flushOne Delivery.attempt Delivery.ensure this1 ctx w1
      = (record (Process (name p) ctx) w1, Rejected err)) /\
  (exists this2 w2,
      flush_action Delivery.attempt Delivery.ensure (this1, w1, []) = (this2, w2, []) /\
      queue this2 = [ctx] /\ length (queue this2) = 1%nat /\
      heap w2 = heap w1 /\
      journal w2 = journal w1 ++
        [Process (name p) ctx; Log ctx "error" "Failed to deliver";
         Increment ctx "delivery_failed"]) /\
  (forall fuel, flush Delivery.attempt Delivery.ensure fuel this1 w1 = None).
Proof.
  intros Ht Hl Hf. unfold dispatch, engine, constructor. cbn [queue app].
  set (this1 := set_queue [ctx] _). set (w1 := scheduleFlush _ _).
  assert (Hxs : extensions (config this1) = [p]) by reflexivity.
  split_and!.
  - reflexivity.
  - by apply flushOne_pre_failing.
  - destruct (flushOne_pre_failing p this1 ctx w1 Hxs Ht Hl Hf) as [err Herr].
    eexists _, _. split_and!.
    + apply (flush_action_failure _ _ this1 w1 [] ctx [] _ err eq_refl Herr).
    + reflexivity.
    + reflexivity.
    + reflexivity.
    + simpl. rewrite <- !app_assoc. reflexivity.
  - intros fuel. apply loop_forever with ctx.
    + apply list_elem_of_here.
    + intros w0. destruct (flushOne_pre_failing p this1 ctx w0 Hxs Ht Hl Hf) as [err Herr].
      eauto.
Qed.

(** A [flush()] over one pending event whose attempt resolves. *)
Lemma flush_single_success (attempt : Context -> Extension -> Async (Context + Error))
    (ensure : Context -> Extension -> Async (option Context))
    (this : EventQueue) (ctx : Context) (w w1 : World) (r : option Context) (fuel : nat) :
  queue this = [ctx] ->
  flushOne attempt ensure this ctx w = (w1, Resolved r) ->
  flush attempt ensure (2 + fuel) this w =
    Some (set_queue [] this,
          Ctx.log ctx "debug" "Delivered"
            (Ctx.stats_gauge ctx "delivered" (getTime w1 - getTime w) w1),
          [ctx]).
Proof.
  intros Hq H. unfold flush, flush_loop. cbn [Nat.add pWhile]. unfold flush_condition at 1.
  rewrite Hq. cbn [length Nat.ltb Nat.leb].
  rewrite (flush_action_success attempt ensure this w [] ctx [] w1 r Hq H).
  reflexivity.
Qed.

(** The destination stage when the attempt on one of its plugins rejects:
    every plugin of the stage is attempted all the same, and the joined
    promise rejects. *)
Lemma fan_out_rejects (attempt : Context -> Extension -> Async (Context + Error))
    (ctx : Context) (f : Extension) (ds : list Extension) :
  f ∈ ds ->
  (forall c w0, exists w1 e, attempt c f w0 = (w1, Rejected e)) ->
  forall w, exists e,
    await_all (map (fun d => attempt ctx d) ds) w
    = (fst (start_all (map (fun d => attempt ctx d) ds) w), Rejected e).
Proof.
  intros Hin Hf. unfold await_all. induction ds as [|d ds IH]; intros w.
  - by apply elem_of_nil in Hin.
  - cbn [map start_all]. destruct (attempt ctx d w) as [w1 [v|e]] eqn:E.
    + apply elem_of_cons in Hin as [->|Hin].
      * destruct (Hf ctx w) as (w1' & e & He). congruence.
      * destruct (IH Hin w1) as [e He].
        destruct (start_all _ w1) as [w2 os]. cbn [fst] in *.
        injection He as Hos. exists e. cbn [Promise_all]. by rewrite Hos.
    + destruct (start_all _ w1) as [w2 os]. by exists e.
Qed.

(** The pipeline over two destination plugins when the attempt on one of
    them rejects. *)
Lemma flushOne_failing_destination
    (attempt : Context -> Extension -> Async (Context + Error))
    (ensure : Context -> Extension -> Async (option Context))
    (f s : Extension) (xs : list Extension) (this : EventQueue) (ctx : Context) :
  extensions (config this) = xs ->
  xs = [f; s] \/ xs = [s; f] ->
  type f = "destination" -> type s = "destination" ->
  always_loaded f -> always_loaded s ->
  (forall c w0, exists w1 e, attempt c f w0 = (w1, Rejected e)) ->
  forall w0, exists e,
    flushOne attempt ensure this ctx w0
    = (fst (start_all (map (fun d => attempt ctx d) xs) (Ctx.seal ctx w0)), Rejected e).
Proof.
  intros Hcfg Hxs Htf Hts Hlf Hls Hf w0.
  assert (Hin : f ∈ xs).
  { destruct Hxs as [-> | ->]; [apply list_elem_of_here|].
    apply list_elem_of_further, list_elem_of_here. }
  assert (Hloaded : Forall always_loaded xs).
  { destruct Hxs as [-> | ->]; by repeat constructor. }
  assert (Hbefore : List.filter (of_type "before") xs = []).
  { destruct Hxs as [-> | ->]; cbn [List.filter];
      rewrite !(of_type_ne "before") by (rewrite ?Htf, ?Hts; done); reflexivity. }
  assert (Henrich : List.filter (of_type "enrichment") xs = []).
  { destruct Hxs as [-> | ->]; cbn [List.filter];
      rewrite !(of_type_ne "enrichment") by (rewrite ?Htf, ?Hts; done); reflexivity. }
  assert (Hdest : List.filter (of_type "destination") xs = xs).
  { destruct Hxs as [-> | ->]; cbn [List.filter];
      rewrite !(of_type_eq "destination") by done; reflexivity. }
  unfold flushOne.
  rewrite isReady_all_loaded by (rewrite Hcfg; exact Hloaded). cbn [negb].
  rewrite Hcfg, Hbefore, Henrich, Hdest. cbn [run_before run_enrichment].
  unfold bind at 1. unfold ret at 1. unfold bind at 1. unfold ret at 1.
  unfold bind at 1. unfold tell at 1. unfold bind at 1.
  destruct (fan_out_rejects attempt ctx f xs Hin Hf (Ctx.seal ctx w0)) as [e ->].
  by exists e.
Qed.

(** C1, as the code has it: with two destination plugins, one always
    failing and one succeeding, and the failure of a destination plugin
    propagating out of [attempt] as the spec has it, every attempt of the
    pipeline seals the event, hands it to both destination plugins and
    rejects, and the iteration puts the whole event back in the pending
    buffer.  The retry does not wait for a second [flush()]: the loop of
    the same call takes the event up again at once, so both plugins, the
    one that succeeded included, receive it again at each iteration, and as
    long as the one plugin keeps failing the call never returns. *)
Theorem destination_failure_requeues_and_redelivers
    (attempt : Context -> Extension -> Async (Context + Error))
    (ensure : Context -> Extension -> Async (option Context))
    (f s : Extension) (xs : list Extension) (ctx : Context) (w : World) :
  xs = [f; s] \/ xs = [s; f] ->
  type f = "destination" -> type s = "destination" ->
  always_loaded f -> always_loaded s ->
  (forall c w0, exists w1 e, attempt c f w0 = (w1, Rejected e)) ->
  let '(this1, w1, _) := dispatch ctx (engine xs) w in
  queue this1 = [ctx] /\
  (forall w0, exists e,
      flushOne attempt ensure this1 ctx w0
      = (fst (start_all (map (fun d => attempt ctx d) xs) (Ctx.seal ctx w0)),
         Rejected e)) /\
  (forall n, exists wn,
      Nat.iter n (flush_action attempt ensure) (this1, w1, []) = (this1, wn, []) /\
      flush_action attempt ensure (this1, wn, [])
      = (this1,
         Ctx.stats_increment ctx "delivery_failed"
           (Ctx.log ctx "error" "Failed to deliver"
              (fst (start_all (map (fun d => attempt ctx d) xs) (Ctx.seal ctx wn)))),
         [])) /\
  (forall fuel, flush attempt ensure fuel this1 w1 = None).
Proof.
  intros Hxs Htf Hts Hlf Hls Hf. unfold dispatch, engine, constructor. cbn [queue app].
  set (this1 := set_queue [ctx] _). set (w1 := scheduleFlush _ _). clearbody w1.
  pose proof (flushOne_failing_destination attempt ensure f s xs this1 ctx
                eq_refl Hxs Htf Hts Hlf Hls Hf) as Hone.
  assert (Hiter : forall w0,
             flush_action attempt ensure (this1, w0, [])
             = (this1,
                Ctx.stats_increment ctx "delivery_failed"
                  (Ctx.log ctx "error" "Failed to deliver"
                     (fst (start_all (map (fun d => attempt ctx d) xs)
                             (Ctx.seal ctx w0)))),
                [])).
  { intros w0. destruct (Hone w0) as [e He].
    exact (flush_action_failure attempt ensure this1 w0 [] ctx [] _ e eq_refl He). }
  split_and!.
  - reflexivity.
  - exact Hone.
  - intros n. induction n as [|n [wn [IHn _]]].
    + exists w1. split; [reflexivity|apply Hiter].
    + eexists. split; [|apply Hiter].
      cbn [Nat.iter nat_rect].
      change (nat_rect _ (this1, w1, []) (fun _ => flush_action attempt ensure) n)
        with (Nat.iter n (flush_action attempt ensure) (this1, w1, [])).
      rewrite IHn. apply Hiter.
  - intros fuel. apply loop_forever with ctx.
    + apply list_elem_of_here.
    + intros w0. destruct (Hone w0) as [e He]. eauto.
Qed.

(** A failing destination plugin under the propagating reading of
    [attempt]: the promise rejects. *)
Lemma attempt_propagating_rejects (c : Context) (f : Extension) (w0 : World) :
  type f = "destination" -> always_fails f ->
  exists w1 e, attempt_propagating c f w0 = (w1, Rejected e).
Proof.
  intros Ht Hf. unfold attempt_propagating.
  destruct (attempt_of_failing c f w0 Hf) as [err ->].
  rewrite (of_type_eq "destination" f Ht). eauto.
Qed.

(** The pipeline over a failing enrichment plugin and a succeeding
    destination plugin. *)
Lemma flushOne_enrichment_destination (e d : Extension) (this : EventQueue) (ctx : Context)
    (st : ContextState) (w : World) :
  extensions (config this) = [e; d] ->
  type e = "enrichment" -> type d = "destination" ->
  always_loaded e -> always_loaded d ->
  always_fails e -> always_succeeds d ->
  heap w !! ctx = Some st ->
  let w_failed := record (Process (name e) ctx) w in
  let w_sealed := Ctx.seal ctx w_failed in
  exists err w3 c3,
    Delivery.attempt ctx e w = (w_failed, Resolved (inr err)) /\
    Delivery.attempt ctx d w_sealed = (w3, Resolved (inl c3)) /\
    flushOne Delivery.attempt Delivery.ensure this ctx w
    = (Ctx.stats_increment ctx "message_delivered" w3, Resolved (Some ctx)) /\
    journal w3 = journal w ++ [Process (name e) ctx; Seal ctx; Process (name d) ctx] /\
    clock w3 = clock w /\
    heap w3 !! ctx = Some (mkContextState (event st) true).
Proof.
  intros Hxs Hte Htd Hle Hld He Hd Hst w_failed w_sealed.
  destruct (attempt_of_failing ctx e w He) as [err Ee].
  assert (Hsealed : heap w_sealed !! ctx = Some (mkContextState (event st) true)).
  { apply (seal_lookup ctx w_failed st). exact Hst. }
  destruct (Hd ctx w_sealed) as (w3 & c3 & Ed); [by eexists|].
  destruct (attempt_spec _ _ _ _ _ Ed) as (Hj & _ & (_ & Hkeep & Hclock) & _).
  exists err, w3, c3. split_and!; [exact Ee|exact Ed| |..].
  - unfold flushOne.
    rewrite isReady_all_loaded by (rewrite Hxs; by repeat constructor).
    rewrite Hxs. cbn [negb List.filter].
    rewrite (of_type_eq "enrichment" e), (of_type_eq "destination" d) by done.
    rewrite !(of_type_ne "before"), (of_type_ne "enrichment" d), (of_type_ne "destination" e)
      by (rewrite ?Hte, ?Htd; done).
    cbn [run_before run_enrichment map].
    unfold bind, ret, tell, await_all. cbn [start_all].
    rewrite Ee. fold w_failed. fold w_sealed. rewrite Ed. reflexivity.
  - rewrite Hj. simpl. rewrite <- !app_assoc. reflexivity.
  - rewrite Hclock. reflexivity.
  - by apply Hkeep.
Qed.

(** C4: with one enrichment plugin that always fails and one destination
    plugin that always succeeds, and one event dispatched, one [flush()]
    absorbs the enrichment failure (the error comes back as a value and the
    event is as it was before the plugin ran), seals the same event,
    delivers it to the destination plugin and returns a flushed list of
    length 1 holding the event; the pending buffer is empty. *)
Theorem enrichment_failure_is_absorbed (e d : Extension) (ctx : Context)
    (st : ContextState) (w : World) (fuel : nat) :
  type e = "enrichment" -> type d = "destination" ->
  always_loaded e -> always_loaded d ->
  always_fails e -> always_succeeds d ->
  heap w !! ctx = Some st ->
  let '(this1, w1, _) := dispatch ctx (engine [e; d]) w in
  exists err w_failed this2 w2 flushed,
    Delivery.attempt ctx e w1 = (w_failed, Resolved (inr err)) /\
    heap w_failed = heap w1 /\
    flush Delivery.attempt Delivery.ensure (2 + fuel) this1 w1 = Some (this2, w2, flushed) /\
    flushed = [ctx] /\ length flushed = 1%nat /\
    queue this2 = [] /\
    journal w2 = journal w1 ++
      [Process (name e) ctx; Seal ctx; Process (name d) ctx;
       Increment ctx "message_delivered";
       Gauge ctx "delivered" 0; Log ctx "debug" "Delivered"] /\
    Ctx.payload_of ctx w2 = Some (event st).
Proof.
  intros Hte Htd Hle Hld He Hd Hst. unfold dispatch, engine, constructor. cbn [queue app].
  set (this1 := set_queue [ctx] _). set (w1 := scheduleFlush _ _).
  assert (Hst1 : heap w1 !! ctx = Some st).
  { unfold w1, scheduleFlush. by destruct (flushing this1). }
  destruct (flushOne_enrichment_destination e d this1 ctx st w1 eq_refl
              Hte Htd Hle Hld He Hd Hst1)
    as (err & w3 & c3 & Ee & Ed & Hone & Hj & Hclock & Hheap).
  clearbody w1.
  eexists err, _, _, _, _. split_and!.
  - exact Ee.
  - reflexivity.
  - apply (flush_single_success _ _ this1 ctx w1 _ (Some ctx) fuel eq_refl Hone).
  - reflexivity.
  - reflexivity.
  - reflexivity.
  - unfold getTime. simpl. rewrite Hclock, Z.sub_diag, Hj, <- !app_assoc. reflexivity.
  - exact (payload_of_lookup ctx
             (Ctx.log ctx "debug" "Delivered"
                (Ctx.stats_gauge ctx "delivered" _
                   (Ctx.stats_increment ctx "message_delivered" w3))) _ Hheap).
Qed.

(** ** The theorems at work on concrete engines *)

Lemma flush_empty_buffer_witness :
  flush Delivery.attempt Delivery.ensure 1 (engine [succeeding "s" "destination"]) empty_world
  = Some (engine [succeeding "s" "destination"], empty_world, []).
Proof.
  apply (flush_empty_buffer Delivery.attempt Delivery.ensure 0
           (engine [succeeding "s" "destination"]) empty_world).
  reflexivity.
Defined.

Lemma archive_never_populated_witness :
  let cfg := mkEventQueueConfig [lazy "segment" "destination"] in
  let w1 := fst (init cfg (one_event "page")) in
  let s := fst (dispatch 0%nat (constructor cfg) w1) in
  archive (fst s) = [] /\
  forall ctx : Context, ~ (ctx ∈ queue (fst s) /\ ctx ∈ archive (fst s)).
Proof.
  intros cfg w1 s.
  apply (archive_never_populated Delivery.attempt Delivery.ensure cfg (one_event "page") s).
  apply reachable_step with (s := (constructor cfg, w1)).
  - apply reachable_init. reflexivity.
  - apply step_dispatch with (ctx := 0%nat) (o := Resolved (Some 0%nat)). reflexivity.
Defined.

Lemma not_ready_counts_as_flushed_witness :
  let s := dispatched_one [unloaded "u" "destination"; succeeding "s" "destination"] "page" in
  (forall ctx w',
      flushOne Delivery.attempt Delivery.ensure (fst s) ctx w' = (w', Resolved None)) /\
  flush Delivery.attempt Delivery.ensure 2 (fst s) (snd s)
  = Some (set_queue [] (fst s), passed_over [0%nat] (snd s), [0%nat]).
Proof.
  intros s.
  apply (not_ready_counts_as_flushed Delivery.attempt Delivery.ensure
           (unloaded "u" "destination") (fst s) (snd s) 2).
  - apply list_elem_of_here.
  - intros w'. reflexivity.
  - simpl. lia.
Defined.

Lemma failed_event_requeued_and_retried_witness :
  let s := dispatched_one [stamping "A"; refusing "B" "seen"] "new" in
  let w1 := fst (flushOne Delivery.attempt Delivery.ensure (fst s) 0%nat (snd s)) in
  let w2 := Ctx.stats_increment 0%nat "delivery_failed"
              (Ctx.log 0%nat "error" "Failed to deliver" w1) in
  flush_action Delivery.attempt Delivery.ensure (fst s, snd s, [])
  = (set_queue [0%nat] (fst s), w2, []) /\
  journal w2 =
    journal w1 ++ [Log 0%nat "error" "Failed to deliver"; Increment 0%nat "delivery_failed"] /\
  heap w2 = heap w1 /\
  (forall fuel,
      flush Delivery.attempt Delivery.ensure (S fuel) (fst s) (snd s)
      = flush_loop Delivery.attempt Delivery.ensure fuel (set_queue [0%nat] (fst s), w2, [])) /\
  (forall fuel this' w' flushed,
      flush Delivery.attempt Delivery.ensure fuel (fst s) (snd s) = Some (this', w', flushed) ->
      0%nat ∈ flushed).
Proof.
  intros s w1 w2.
  exact (failed_event_requeued_and_retried Delivery.attempt Delivery.ensure
           (fst s) (snd s) w1 0%nat [] "refused" eq_refl eq_refl).
Defined.

Lemma flush_terminates_iff_settles_witness :
  let s := dispatched_one [failing "pre" "before"] "page" in
  (forall fuel, flush Delivery.attempt Delivery.ensure fuel (fst s) (snd s) = None) /\
  ~ Settles Delivery.attempt Delivery.ensure (fst s) (snd s).
Proof.
  intros s.
  destruct (flush_terminates_iff_settles Delivery.attempt Delivery.ensure (fst s) (snd s))
    as (Hiff & _ & H).
  assert (Hnone : forall fuel,
             flush Delivery.attempt Delivery.ensure fuel (fst s) (snd s) = None).
  { apply (H 0%nat).
    - apply list_elem_of_here.
    - intros w0.
      destruct (flushOne_pre_failing (failing "pre" "before") (fst s) 0%nat w0
                  eq_refl eq_refl (fun _ => eq_refl)
                  (fun _ => ex_intro _ "boom" eq_refl)) as [err E].
      exists (record (Process "pre" 0%nat) w0), err. exact E. }
  split; [exact Hnone|].
  intros Hs. apply Hiff in Hs. destruct Hs as (fuel & r & Hr).
  rewrite Hnone in Hr. discriminate.
Defined.

Lemma seal_between_enrichment_and_destinations_witness :
  let this := engine [stamping "A";
                      plugin "E" "enrichment" (fun p => Fresh (p ++ "+geo"));
                      failing "E2" "enrichment";
                      plugin "D1" "destination" (fun _ => Update "spoiled");
                      succeeding "D2" "destination"] in
  let w := one_event "new" in
  let before := List.filter (of_type "before") (extensions (config this)) in
  let enrichment := List.filter (of_type "enrichment") (extensions (config this)) in
  let destinations := List.filter (of_type "destination") (extensions (config this)) in
  journal (fst (flushOne Delivery.attempt Delivery.ensure this 0%nat w)) =
    [Process "A" 0%nat; Process "E" 0%nat; Process "E2" 1%nat;
     Seal 1%nat; Process "D1" 1%nat; Process "D2" 1%nat;
     Increment 1%nat "message_delivered"] /\
  exists (c' : Context) (w2 w' : World) (j : list Action),
    run_enrichment Delivery.attempt enrichment 0%nat
      (fst (run_before Delivery.ensure before 0%nat w)) = (w2, Resolved c') /\
    flushOne Delivery.attempt Delivery.ensure this 0%nat w = (w', Resolved (Some c')) /\
    journal w2 = journal w ++ j /\
    calls_of (before ++ enrichment) j /\
    journal w' = journal w2 ++
      Seal c' :: map (fun d => Process (name d) c') destinations ++
      [Increment c' "message_delivered"] /\
    Ctx.is_sealed c' w' = true /\
    Ctx.payload_of c' w' = Ctx.payload_of c' w2.
Proof.
  intros this w before enrichment destinations. split; [reflexivity|].
  apply (seal_between_enrichment_and_destinations this 0%nat 0%nat w
           (fst (run_before Delivery.ensure before 0%nat w))).
  - simpl. lia.
  - reflexivity.
  - reflexivity.
Defined.

Lemma pre_failure_requeues_and_retries_witness :
  let s := dispatched_one [failing "pre" "before"] "page" in
  queue (fst s) = [0%nat] /\
  (exists err,
      flushOne Delivery.attempt Delivery.ensure (fst s) 0%nat (snd s)
      = (record (Process "pre" 0%nat) (snd s), Rejected err)) /\
  (exists this2 w2,
      flush_action Delivery.attempt Delivery.ensure (fst s, snd s, []) = (this2, w2, []) /\
      queue this2 = [0%nat] /\ length (queue this2) = 1%nat /\
      heap w2 = heap (snd s) /\
      journal w2 = journal (snd s) ++
        [Process "pre" 0%nat; Log 0%nat "error" "Failed to deliver";
         Increment 0%nat "delivery_failed"]) /\
  (forall fuel, flush Delivery.attempt Delivery.ensure fuel (fst s) (snd s) = None).
Proof.
  apply (pre_failure_requeues_and_retries (failing "pre" "before") 0%nat (one_event "page")).
  - reflexivity.
  - intros w. reflexivity.
  - intros p. exists "boom". reflexivity.
Defined.

Lemma succeeding_always_succeeds (name type : string) : always_succeeds (succeeding name type).
Proof.
  intros ctx w [s Hs]. exists (record (Process name ctx) w), ctx.
  unfold Delivery.attempt, Ctx.payload_of. simpl. by rewrite Hs.
Qed.

Lemma destination_failure_requeues_and_redelivers_witness :
  let f := failing "f" "destination" in
  let s0 := succeeding "s" "destination" in
  let s := dispatched_one [f; s0] "page" in
  queue (fst s) = [0%nat] /\
  (forall w0, exists e,
      flushOne attempt_propagating Delivery.ensure (fst s) 0%nat w0
      = (fst (start_all (map (fun d => attempt_propagating 0%nat d) [f; s0])
                (Ctx.seal 0%nat w0)),
         Rejected e)) /\
  (forall n, exists wn,
      Nat.iter n (flush_action attempt_propagating Delivery.ensure) (fst s, snd s, [])
      = (fst s, wn, []) /\
      flush_action attempt_propagating Delivery.ensure (fst s, wn, [])
      = (fst s,
         Ctx.stats_increment 0%nat "delivery_failed"
           (Ctx.log 0%nat "error" "Failed to deliver"
              (fst (start_all (map (fun d => attempt_propagating 0%nat d) [f; s0])
                      (Ctx.seal 0%nat wn)))),
         [])) /\
  (forall fuel, flush attempt_propagating Delivery.ensure fuel (fst s) (snd s) = None).
Proof.
  intros f s0 s.
  apply (destination_failure_requeues_and_redelivers attempt_propagating Delivery.ensure
           f s0 [f; s0] 0%nat (one_event "page")).
  - left. reflexivity.
  - reflexivity.
  - reflexivity.
  - intros w. reflexivity.
  - intros w. reflexivity.
  - intros c w0. apply attempt_propagating_rejects; [reflexivity|].
    intros p. exists "boom". reflexivity.
Defined.

Lemma enrichment_failure_is_absorbed_witness :
  let s := dispatched_one [failing "e" "enrichment"; succeeding "d" "destination"] "page" in
  exists err w_failed this2 w2 flushed,
    Delivery.attempt 0%nat (failing "e" "enrichment") (snd s)
    = (w_failed, Resolved (inr err)) /\
    heap w_failed = heap (snd s) /\
    flush Delivery.attempt Delivery.ensure 2 (fst s) (snd s) = Some (this2, w2, flushed) /\
    flushed = [0%nat] /\ length flushed = 1%nat /\
    queue this2 = [] /\
    journal w2 = journal (snd s) ++
      [Process "e" 0%nat; Seal 0%nat; Process "d" 0%nat;
       Increment 0%nat "message_delivered";
       Gauge 0%nat "delivered" 0; Log 0%nat "debug" "Delivered"] /\
    Ctx.payload_of 0%nat w2 = Some "page".
Proof.
  apply (enrichment_failure_is_absorbed
           (failing "e" "enrichment") (succeeding "d" "destination")
           0%nat (mkContextState "page" false) (one_event "page") 0).
  - reflexivity.
  - reflexivity.
  - intros w. reflexivity.
  - intros w. reflexivity.
  - intros p. exists "boom". reflexivity.
  - apply succeeding_always_succeeds.
  - reflexivity.
Defined.

(** ** Where the code departs from the specification *)

(** Against C1: two destination plugins, one failing and one succeeding,
    one event dispatched, the destination failure propagating.  [flush()]
    never returns, whatever the number of iterations it is given, so there
    is no state "after [flush()]" in which the event is pending and no
    second [flush()]; and whatever the delivery helpers do, no [flush()]
    returns with the event in the pending buffer.  After two iterations of
    the one call the event is pending again, nothing is flushed, and both
    plugins have received it twice. *)
Lemma destination_failure_flush_never_returns :
  let s := dispatched_one [failing "f" "destination"; succeeding "s" "destination"] "page" in
  let after2 :=
    Nat.iter 2 (flush_action attempt_propagating Delivery.ensure) (fst s, snd s, []) in
  (forall fuel, flush attempt_propagating Delivery.ensure fuel (fst s) (snd s) = None) /\
  (forall attempt ensure, ~ exists fuel this2 w2 flushed,
      flush attempt ensure fuel (fst s) (snd s) = Some (this2, w2, flushed) /\
      0%nat ∈ queue this2) /\
  queue (fst (fst after2)) = [0%nat] /\
  snd after2 = [] /\
  journal (snd (fst after2)) =
    [Log 0%nat "debug" "Dispatching"; Increment 0%nat "message_dispatched";
     Seal 0%nat; Process "f" 0%nat; Process "s" 0%nat;
     Log 0%nat "error" "Failed to deliver"; Increment 0%nat "delivery_failed";
     Seal 0%nat; Process "f" 0%nat; Process "s" 0%nat;
     Log 0%nat "error" "Failed to deliver"; Increment 0%nat "delivery_failed"].
Proof.
  intros s after2. split_and!; try reflexivity.
  - intros fuel. apply loop_forever with 0%nat.
    + apply list_elem_of_here.
    + intros w0.
      destruct (flushOne_failing_destination attempt_propagating Delivery.ensure
                  (failing "f" "destination") (succeeding "s" "destination")
                  [failing "f" "destination"; succeeding "s" "destination"]
                  (fst s) 0%nat eq_refl (or_introl eq_refl) eq_refl eq_refl
                  (fun _ => eq_refl) (fun _ => eq_refl)
                  (fun c w1 => attempt_propagating_rejects c
                                 (failing "f" "destination") w1 eq_refl
                                 (fun _ => ex_intro _ "boom" eq_refl)) w0) as [e He].
      eauto.
  - intros attempt ensure (fuel & this2 & w2 & flushed & H & Hin).
    apply loop_returns_empty in H. rewrite H in Hin. by apply elem_of_nil in Hin.
Qed.

(** Against C2: one pre plugin that always fails, one event dispatched.
    [flush()] never returns, whatever the number of iterations it is given,
    so there is no returned list; and whatever the delivery helpers do, no
    [flush()] returns with an event in the pending buffer. *)
Lemma pre_failure_flush_never_returns :
  let s := dispatched_one [failing "pre" "before"] "page" in
  (forall fuel, flush Delivery.attempt Delivery.ensure fuel (fst s) (snd s) = None) /\
  (forall attempt ensure, ~ exists fuel this2 w2,
      flush attempt ensure fuel (fst s) (snd s) = Some (this2, w2, []) /\
      length (queue this2) = 1%nat).
Proof.
  intros s.
  assert (Hnone : forall fuel, flush Delivery.attempt Delivery.ensure fuel (fst s) (snd s) = None).
  { intros fuel. apply loop_forever with 0%nat.
    - apply list_elem_of_here.
    - intros w0.
      destruct (flushOne_pre_failing (failing "pre" "before") (fst s) 0%nat w0
                  eq_refl eq_refl (fun _ => eq_refl)
                  (fun _ => ex_intro _ "boom" eq_refl)) as [err E].
      eauto. }
  split; [exact Hnone|].
  intros attempt ensure (fuel & this2 & w2 & H & Hlen).
  apply loop_returns_empty in H. rewrite H in Hlen. discriminate.
Qed.

(** Against C5: a pre plugin rewrites the payload at each visit and a second
    one refuses the payload left by the first visit.  Within one [flush()]
    call the event fails, is put back, is processed again and is delivered:
    the retry did not wait for a later flush. *)
Lemma failed_event_processed_again_in_same_flush :
  let s := dispatched_one [stamping "A"; refusing "B" "seen"] "new" in
  let r := flush Delivery.attempt Delivery.ensure 3 (fst s) (snd s) in
  returned r = Some [0%nat] /\
  pending_after r = Some [] /\
  journal_after r = Some
    [Log 0%nat "debug" "Dispatching"; Increment 0%nat "message_dispatched";
     Process "A" 0%nat; Process "B" 0%nat;
     Log 0%nat "error" "Failed to deliver"; Increment 0%nat "delivery_failed";
     Process "A" 0%nat; Process "B" 0%nat; Seal 0%nat;
     Increment 0%nat "message_delivered";
     Gauge 0%nat "delivered" 0; Log 0%nat "debug" "Delivered"].
Proof.
  intros s r. split_and!; reflexivity.
Qed.

(** ** Construction, registration and scheduling *)

Lemma loads_all_resolve (xs : list Extension) (c : Context) :
  (forall x w0, x ∈ xs -> exists w1, load x c w0 = (w1, Resolved tt)) ->
  forall w, exists w' l,
    await_all (map (fun xt => load xt c) xs) w = (w', Resolved l).
Proof.
  unfold await_all. induction xs as [|x xs IH]; intros Hall w; simpl.
  - by exists w, [].
  - destruct (Hall x w (list_elem_of_here _ _)) as [w1 ->].
    destruct (IH (fun y w0 Hy => Hall y w0 (list_elem_of_further _ _ _ Hy)) w1)
      as (w2 & l & Hl).
    destruct (start_all _ w1) as [w2' os]. injection Hl as -> Hos.
    exists w2, (tt :: l). cbn [Promise_all]. by rewrite Hos.
Qed.

Lemma loads_one_rejects (xs : list Extension) (c : Context) (x : Extension) :
  x ∈ xs ->
  (forall w0, exists w1 e, load x c w0 = (w1, Rejected e)) ->
  forall w, exists w' e,
    await_all (map (fun xt => load xt c) xs) w = (w', Rejected e).
Proof.
  unfold await_all. intros Hin Hx. induction xs as [|y xs IH]; intros w.
  - by apply elem_of_nil in Hin.
  - simpl. destruct (load y c w) as [w1 [u|e]] eqn:E.
    + apply elem_of_cons in Hin as [->|Hin].
      * destruct (Hx w) as (w1' & e & He). congruence.
      * destruct (IH Hin w1) as (w2 & e & He).
        destruct (start_all _ w1) as [w2' os]. injection He as -> Hos.
        exists w2, e. cbn [Promise_all]. by rewrite Hos.
    + destruct (start_all _ w1) as [w2 os]. by exists w2, e.
Qed.

(** X1: [init] succeeds or fails as a group.  When the [load] of every
    configured plugin resolves, it resolves with an engine whose buffers are
    empty, whose flushing flag is down and whose configuration is the one
    given, whether or not the plugins report themselves loaded.  When the
    [load] of one configured plugin rejects, [init] rejects and hands back
    no engine. *)
Theorem init_all_or_nothing (cfg : EventQueueConfig) (w : World) :
  ((forall x c w0, x ∈ extensions cfg -> exists w1, load x c w0 = (w1, Resolved tt)) ->
   exists w', init cfg w = (w', Resolved (mkEventQueue [] [] false cfg))) /\
  (forall x, x ∈ extensions cfg ->
             (forall c w0, exists w1 e, load x c w0 = (w1, Rejected e)) ->
   exists w' e, init cfg w = (w', Rejected e)).
Proof.
  split.
  - intros Hall. unfold init, constructor. cbn [Ctx.system Ctx.create config].
    unfold bind.
    destruct (loads_all_resolve (extensions cfg) (length (heap w))
                (fun x w0 Hx => Hall x _ w0 Hx)
                (set_heap (heap w ++ [mkContextState "system" false]) w))
      as (w' & l & ->).
    by exists w'.
  - intros x Hin Hx. unfold init, constructor. cbn [Ctx.system Ctx.create config].
    unfold bind.
    destruct (loads_one_rejects (extensions cfg) (length (heap w)) x Hin (Hx _)
                (set_heap (heap w ++ [mkContextState "system" false]) w))
      as (w' & e & ->).
    by exists w', e.
Qed.

Lemma init_all_or_nothing_witness :
  (exists w',
      init (mkEventQueueConfig [lazy "a" "destination"; unloaded "u" "before"])
        (one_event "page")
      = (w', Resolved (mkEventQueue [] [] false
                         (mkEventQueueConfig
                            [lazy "a" "destination"; unloaded "u" "before"])))) /\
  (exists w' e,
      init (mkEventQueueConfig [lazy "a" "destination"; broken "b" "destination"])
        (one_event "page")
      = (w', Rejected e)).
Proof.
  split.
  - apply (init_all_or_nothing
             (mkEventQueueConfig [lazy "a" "destination"; unloaded "u" "before"])
             (one_event "page")).
    intros x c w0 Hx. apply elem_of_cons in Hx as [->|Hx]; [by eexists|].
    apply elem_of_cons in Hx as [->|Hx]; [by eexists|]. by apply elem_of_nil in Hx.
  - apply (proj2 (init_all_or_nothing
                    (mkEventQueueConfig [lazy "a" "destination"; broken "b" "destination"])
                    (one_event "page"))
             (broken "b" "destination")).
    + apply list_elem_of_further, list_elem_of_here.
    + intros c w0. by exists w0, "load failed".
Defined.

(** X3: every [dispatch] arms a timer of its own unless a timer-driven flush is
    in flight: after a run of dispatch calls on an engine that is not
    flushing, as many timers were armed as events were dispatched; on an
    engine that is flushing, none. *)
Theorem dispatch_arms_one_timer_per_call (ctxs : list Context) (this : EventQueue)
    (w : World) :
  let '(_, w', _) := dispatch_all ctxs this w in
  timers w' = if flushing this then timers w else (timers w + length ctxs)%nat.
Proof.
  revert this w. induction ctxs as [|ctx rest IH]; intros this w.
  - simpl. destruct (flushing this); [done|lia].
  - cbn [dispatch_all]. unfold dispatch.
    set (this1 := set_queue (queue this ++ [ctx]) this).
    set (w1 := scheduleFlush this1 _).
    specialize (IH this1 w1).
    destruct (dispatch_all rest this1 w1) as [[this2 w2] os].
    rewrite IH. unfold w1, scheduleFlush. simpl.
    destruct (flushing this); simpl; lia.
Qed.

(** ** More on the flush loop and the pipeline *)

Lemma run_before_app (ensure : Context -> Extension -> Async (option Context))
    (pre suf : list Extension) :
  forall (ctx : Context) (w : World),
    run_before ensure (pre ++ suf) ctx w =
    match run_before ensure pre ctx w with
    | (w1, Resolved c1) => run_before ensure suf c1 w1
    | (w1, Rejected e) => (w1, Rejected e)
    end.
Proof.
  induction pre as [|p pre IH]; intros ctx w; [reflexivity|].
  cbn [app run_before]. unfold bind.
  destruct (ensure ctx p w) as [w1 [[c|]|e]]; [apply IH|apply IH|reflexivity].
Qed.

Lemma pWhile_S {S : Type} (cond : S -> bool) (act : S -> S) (n : nat) (s : S) :
  pWhile (Datatypes.S n) cond act s =
  if cond s then pWhile n cond act (act s) else Some s.
Proof. reflexivity. Qed.

Lemma filter_none (f : Extension -> bool) (xs : list Extension) :
  Forall (fun x => f x = false) xs -> List.filter f xs = [].
Proof.
  induction 1 as [|x xs Hx _ IH]; [reflexivity|]. simpl. by rewrite Hx.
Qed.

Section PipelineFacts.

Variable attempt : Context -> Extension -> Async (Context + Error).
Variable ensure : Context -> Extension -> Async (option Context).

(** X2: a plugin that is registered stays registered even when its [load]
    rejects: [register] appends it to the configuration before loading it
    and touches nothing else of the engine.  If that plugin never reports
    itself loaded, the readiness gate is closed from then on: [flushOne]
    attempts nothing, and [flush()] reports every pending event as flushed
    without any delivery. *)
Theorem register_of_unloadable_plugin_blocks_delivery (x : Extension)
    (this : EventQueue) (w : World) (fuel : nat) :
  (forall w', isLoaded x w' = false) ->
  (length (queue this) < fuel)%nat ->
  let '(this', w', _) := register x this w in
  extensions (config this') = extensions (config this) ++ [x] /\
  queue this' = queue this /\
  archive this' = archive this /\
  flushing this' = flushing this /\
  (forall ctx w0, flushOne attempt ensure this' ctx w0 = (w0, Resolved None)) /\
  flush attempt ensure fuel this' w'
  = Some (set_queue [] this', passed_over (queue this) w', queue this).
Proof.
  intros Hx Hfuel. unfold register.
  destruct (Ctx.system w) as [w1 c]. destruct (load x c w1) as [w2 o].
  assert (Hin : x ∈ extensions (config (push_extension x this))).
  { simpl. apply elem_of_app. right. apply list_elem_of_here. }
  split_and!; try reflexivity.
  - intros ctx w0. apply flushOne_not_ready. by apply isReady_not_loaded with x.
  - unfold flush.
    by rewrite (loop_not_ready attempt ensure x (queue this)
                  (push_extension x this) w2 [] fuel Hin Hx eq_refl Hfuel).
Qed.

(** X4: when the timer callback completes, the pending buffer is empty, the
    flushing flag is down, whatever it was before, the archive and the
    configuration are as they were, and exactly one new timer is armed. *)
Theorem timer_callback_drains_and_rearms (fuel : nat) (this this' : EventQueue)
    (w w' : World) :
  timer_callback attempt ensure fuel this w = Some (this', w') ->
  this' = set_flushing false (set_queue [] this) /\
  exists w2 flushed,
    flush attempt ensure fuel (set_flushing true this) w
    = Some (set_queue [] (set_flushing true this), w2, flushed) /\
    flushed ≡ₚ queue this /\
    w' = setTimeout w2.
Proof.
  unfold timer_callback.
  destruct (flush attempt ensure fuel (set_flushing true this) w)
    as [[[this2 w2] flushed]|] eqn:E; [|discriminate].
  destruct (loop_frame _ _ _ _ _ E) as [q Hq]. simpl in Hq.
  pose proof (loop_returns_empty _ _ _ _ _ _ _ E) as Hempty.
  pose proof (loop_perm _ _ _ _ _ E) as Hperm. simpl in Hperm.
  subst this2. simpl in Hempty. subst q.
  intros [= <- <-]. split; [reflexivity|].
  exists w2, flushed. split_and!; [reflexivity|exact Hperm|reflexivity].
Qed.

(** X5: when a pending event fails on every attempt, the timer callback never
    completes: the flushing flag it raised is never lowered and no further
    timer is armed. *)
Theorem timer_callback_stuck_on_failing_event (this : EventQueue) (w : World)
    (ctx : Context) :
  ctx ∈ queue this ->
  (forall w0, exists w1 e, flushOne attempt ensure this ctx w0 = (w1, Rejected e)) ->
  forall fuel, timer_callback attempt ensure fuel this w = None.
Proof.
  intros Hin Hfail fuel. unfold timer_callback, flush.
  by rewrite (loop_forever attempt ensure ctx fuel (set_flushing true this) w [] Hin Hfail).
Qed.

Lemma loop_fifo (q : list Context) :
  forall (this : EventQueue) (w : World) (flushed : list Context),
    queue this = q ->
    (forall ctx w0, exists w1 r, flushOne attempt ensure this ctx w0 = (w1, Resolved r)) ->
    exists w',
      flush_loop attempt ensure (S (length q)) (this, w, flushed)
      = Some (set_queue [] this, w', flushed ++ q).
Proof.
  unfold flush_loop.
  induction q as [|ctx rest IH]; intros this w flushed Hq Hok.
  - exists w. simpl. rewrite Hq. simpl. rewrite app_nil_r, <- Hq. by rewrite set_queue_queue.
  - destruct (Hok ctx w) as (w1 & r & E).
    cbn [length]. rewrite pWhile_S. unfold flush_condition at 1. rewrite Hq.
    cbn [length Nat.ltb Nat.leb].
    rewrite (flush_action_success attempt ensure this w flushed ctx rest w1 r Hq E).
    destruct (IH (set_queue rest this)
                (Ctx.log ctx "debug" "Delivered"
                   (Ctx.stats_gauge ctx "delivered" (getTime w1 - getTime w) w1))
                (flushed ++ [ctx]) eq_refl Hok) as [w' Hw'].
    exists w'. rewrite Hw', <- app_assoc. reflexivity.
Qed.

(** X6: when no attempt fails, [flush()] returns after one pass over the
    buffer, and the list it returns holds the pending events in the order
    they were dispatched. *)
Theorem flush_returns_fifo_when_nothing_fails (this : EventQueue) (w : World) :
  (forall ctx w0, exists w1 r, flushOne attempt ensure this ctx w0 = (w1, Resolved r)) ->
  exists w',
    flush attempt ensure (S (length (queue this))) this w
    = Some (set_queue [] this, w', queue this).
Proof.
  intros Hok. apply (loop_fifo (queue this) this w [] eq_refl Hok).
Qed.

(** X7: a [flush()] that has returned left nothing behind: it changed the
    pending buffer, now empty, and nothing else of the engine, and calling
    [flush()] again at once returns the empty list and changes nothing. *)
Theorem flush_after_flush_is_noop (fuel fuel' : nat) (this this' : EventQueue)
    (w w' : World) (flushed : list Context) :
  flush attempt ensure fuel this w = Some (this', w', flushed) ->
  this' = set_queue [] this /\
  flush attempt ensure (S fuel') this' w' = Some (this', w', []).
Proof.
  intros H.
  destruct (loop_frame _ _ _ _ _ H) as [q Hq]. simpl in Hq.
  pose proof (loop_returns_empty _ _ _ _ _ _ _ H) as Hempty.
  subst this'. simpl in Hempty. subst q. split; reflexivity.
Qed.

(** X8: however many iterations the loop of [flush()] has run, and whether or
    not it will ever return, no event was lost or duplicated: the events
    flushed so far together with those still pending are the events that
    were pending at the start; and only the pending buffer of the engine
    has changed. *)
Theorem flush_iterations_conserve_events (n : nat) (this : EventQueue) (w : World) :
  let s := Nat.iter n (flush_action attempt ensure) (this, w, []) in
  snd s ++ queue (fst (fst s)) ≡ₚ queue this /\
  exists q, fst (fst s) = set_queue q this.
Proof.
  induction n as [|n [IHp [q IHq]]].
  - simpl. split; [reflexivity|]. exists (queue this). by rewrite set_queue_queue.
  - cbn [Nat.iter nat_rect]. cbv zeta.
    change (nat_rect _ (this, w, []) (fun _ => flush_action attempt ensure) n)
      with (Nat.iter n (flush_action attempt ensure) (this, w, [])) in *.
    split.
    + by rewrite flush_action_perm.
    + destruct (flush_action_frame attempt ensure
                  (Nat.iter n (flush_action attempt ensure) (this, w, []))) as [q' Hq'].
      exists q'. cbv zeta in IHq. by rewrite Hq', IHq.
Qed.

(** X9: a plugin whose type is none of the three stage tags takes no part in
    the pipeline but still counts for readiness: while it reports itself
    loaded, [flushOne] behaves as if it were not registered; while it does
    not, [flushOne] attempts nothing. *)
Theorem plugin_of_other_type_only_gates (this this0 : EventQueue)
    (xs ys : list Extension) (x : Extension) (ctx : Context) (w : World) :
  extensions (config this) = xs ++ x :: ys ->
  extensions (config this0) = xs ++ ys ->
  type x <> "before" -> type x <> "enrichment" -> type x <> "destination" ->
  flushOne attempt ensure this ctx w =
    if isLoaded x w then flushOne attempt ensure this0 ctx w else (w, Resolved None).
Proof.
  intros H H0 Hb He Hd. unfold flushOne, isReady. rewrite H, H0.
  rewrite !forallb_app, !List.filter_app. cbn [forallb List.filter].
  rewrite (of_type_ne "before" x Hb), (of_type_ne "enrichment" x He),
    (of_type_ne "destination" x Hd).
  destruct (isLoaded x w); cbn [andb].
  - reflexivity.
  - by rewrite andb_false_r.
Qed.

(** X10: with no plugin of a stage type registered, and in particular with no
    plugin at all, [flushOne] still seals the event, counts it as delivered
    and resolves with it, though nothing received it. *)
Theorem flushOne_without_stage_plugins (this : EventQueue) (ctx : Context) (w : World) :
  Forall (fun x => isLoaded x w = true /\ type x <> "before" /\
                   type x <> "enrichment" /\ type x <> "destination")
    (extensions (config this)) ->
  flushOne attempt ensure this ctx w
  = (Ctx.stats_increment ctx "message_delivered" (Ctx.seal ctx w), Resolved (Some ctx)).
Proof.
  intros H. unfold flushOne, isReady.
  assert (Hready : forallb (fun p => isLoaded p w) (extensions (config this)) = true).
  { apply forallb_forall. intros x Hx. rewrite Forall_forall in H.
    apply list_elem_of_In in Hx. by destruct (H x Hx). }
  rewrite Hready. cbn [negb].
  rewrite !filter_none; [reflexivity|..];
    (eapply Forall_impl; [exact H|]); intros x (_ & Hb & He & Hd); by apply of_type_ne.
Qed.

(** X11: the pre stage stops at the first plugin that fails: [flushOne] rejects
    with that failure and the world is the one that plugin left.  The
    later pre plugins, the enrichment plugins and the destination plugins
    are not called, and the engine does not seal the event. *)
Theorem pre_stage_failure_skips_the_rest (this : EventQueue) (ctx c1 : Context)
    (w w1 w2 : World) (pre suf : list Extension) (b : Extension) (e : Error) :
  isReady this w = true ->
  List.filter (of_type "before") (extensions (config this)) = pre ++ b :: suf ->
  run_before ensure pre ctx w = (w1, Resolved c1) ->
  ensure c1 b w1 = (w2, Rejected e) ->
  flushOne attempt ensure this ctx w = (w2, Rejected e).
Proof.
  intros Hready Hbefore Hpre Hb. unfold flushOne. rewrite Hready. cbn [negb].
  rewrite Hbefore. unfold bind at 1.
  rewrite run_before_app, Hpre. cbn [run_before]. unfold bind at 1. by rewrite Hb.
Qed.

Lemma run_enrichment_resolves (xs : list Extension) :
  (forall c x w0, exists w1 v, attempt c x w0 = (w1, Resolved v)) ->
  forall ctx w, exists w' c', run_enrichment attempt xs ctx w = (w', Resolved c').
Proof.
  intros Hok. induction xs as [|x xs IH]; intros ctx w; simpl.
  - by exists w, ctx.
  - unfold bind. destruct (Hok ctx x w) as (w1 & v & ->).
    destruct v; apply IH.
Qed.

Lemma attempts_all_resolve (xs : list Extension) (ctx : Context) :
  (forall c x w0, exists w1 v, attempt c x w0 = (w1, Resolved v)) ->
  forall w, exists w' l,
    await_all (map (fun d => attempt ctx d) xs) w = (w', Resolved l).
Proof.
  intros Hok. unfold await_all. induction xs as [|x xs IH]; intros w; simpl.
  - by exists w, [].
  - destruct (Hok ctx x w) as (w1 & v & ->).
    destruct (IH w1) as (w2 & l & Hl).
    destruct (start_all _ w1) as [w2' os]. injection Hl as -> Hos.
    exists w2, (v :: l). cbn [Promise_all]. by rewrite Hos.
Qed.

Lemma flushOne_resolves_without_pre (this : EventQueue) :
  (forall c x w0, exists w1 v, attempt c x w0 = (w1, Resolved v)) ->
  List.filter (of_type "before") (extensions (config this)) = [] ->
  forall ctx w0, exists w1 r, flushOne attempt ensure this ctx w0 = (w1, Resolved r).
Proof.
  intros Hok Hnone ctx w0.
  unfold flushOne. destruct (isReady this w0); cbn [negb]; [|by eauto].
  rewrite Hnone. cbn [run_before]. unfold bind at 1. unfold ret at 1.
  unfold bind at 1.
  destruct (run_enrichment_resolves
              (List.filter (of_type "enrichment") (extensions (config this)))
              Hok ctx w0) as (w1 & c' & ->).
  unfold bind at 1. unfold tell at 1. unfold bind at 1.
  destruct (attempts_all_resolve
              (List.filter (of_type "destination") (extensions (config this))) c' Hok
              (Ctx.seal c' w1)) as (w2 & l & ->).
  unfold bind, tell, ret. eauto.
Qed.

(** X12: only the pre stage can make the engine retry.  When [attempt]
    hands failures back as values instead of rejecting, an engine without
    pre plugins never sees a pipeline failure, whatever its enrichment and
    destination plugins do: every [flushOne] resolves, and [flush()]
    returns after one pass with the pending events in order. *)
Theorem no_retry_without_pre_plugins (this : EventQueue) (w : World) :
  (forall c x w0, exists w1 v, attempt c x w0 = (w1, Resolved v)) ->
  List.filter (of_type "before") (extensions (config this)) = [] ->
  (forall ctx w0, exists w1 r, flushOne attempt ensure this ctx w0 = (w1, Resolved r)) /\
  exists w',
    flush attempt ensure (S (length (queue this))) this w
    = Some (set_queue [] this, w', queue this).
Proof.
  intros Hok Hnone.
  pose proof (flushOne_resolves_without_pre this Hok Hnone) as Hone.
  split; [exact Hone|].
  apply (loop_fifo (queue this) this w [] eq_refl Hone).
Qed.

End PipelineFacts.

Lemma delivery_attempt_never_rejects (c : Context) (x : Extension) (w0 : World) :
  exists w1 v, Delivery.attempt c x w0 = (w1, Resolved v).
Proof.
  destruct (Delivery.attempt c x w0) as [w1 o] eqn:E.
  destruct (attempt_spec _ _ _ _ _ E) as (_ & [v ->] & _). by exists w1, v.
Qed.

Lemma register_of_unloadable_plugin_blocks_delivery_witness :
  let s := dispatched_one [succeeding "d" "destination"] "page" in
  let '(this', w', _) := register (broken "b" "destination") (fst s) (snd s) in
  extensions (config this') = extensions (config (fst s)) ++ [broken "b" "destination"] /\
  queue this' = queue (fst s) /\
  archive this' = archive (fst s) /\
  flushing this' = flushing (fst s) /\
  (forall ctx w0,
      flushOne Delivery.attempt Delivery.ensure this' ctx w0 = (w0, Resolved None)) /\
  flush Delivery.attempt Delivery.ensure 2 this' w'
  = Some (set_queue [] this', passed_over (queue (fst s)) w', queue (fst s)).
Proof.
  intros s.
  apply (register_of_unloadable_plugin_blocks_delivery Delivery.attempt Delivery.ensure
           (broken "b" "destination") (fst s) (snd s) 2).
  - intros w'. reflexivity.
  - simpl. lia.
Defined.

Lemma timer_callback_drains_and_rearms_witness :
  let s := dispatched_one [succeeding "d" "destination"] "page" in
  let r := timer_callback Delivery.attempt Delivery.ensure 2 (fst s) (snd s) in
  (fst <$> r) = Some (set_flushing false (set_queue [] (fst s))) /\
  (timers <$> (snd <$> r)) = Some 2%nat /\
  match r with
  | Some (this', w') =>
      this' = set_flushing false (set_queue [] (fst s)) /\
      exists w2 flushed,
        flush Delivery.attempt Delivery.ensure 2 (set_flushing true (fst s)) (snd s)
        = Some (set_queue [] (set_flushing true (fst s)), w2, flushed) /\
        flushed ≡ₚ queue (fst s) /\
        w' = setTimeout w2
  | None => False
  end.
Proof.
  intros s r. split; [reflexivity|]. split; [reflexivity|].
  destruct r as [[this' w']|] eqn:E.
  - apply (timer_callback_drains_and_rearms Delivery.attempt Delivery.ensure
             2 (fst s) this' (snd s) w' E).
  - discriminate E.
Defined.

Lemma timer_callback_stuck_on_failing_event_witness :
  let s := dispatched_one [failing "pre" "before"] "page" in
  queue (fst s) = [0%nat] /\
  forall fuel, timer_callback Delivery.attempt Delivery.ensure fuel (fst s) (snd s) = None.
Proof.
  intros s. split; [reflexivity|].
  apply (timer_callback_stuck_on_failing_event Delivery.attempt Delivery.ensure
           (fst s) (snd s) 0%nat).
  - apply list_elem_of_here.
  - intros w0.
    destruct (flushOne_pre_failing (failing "pre" "before") (fst s) 0%nat w0
                eq_refl eq_refl (fun _ => eq_refl)
                (fun _ => ex_intro _ "boom" eq_refl)) as [err E].
    exists (record (Process "pre" 0%nat) w0), err. exact E.
Defined.

Lemma flush_returns_fifo_when_nothing_fails_witness :
  let xs := [failing "e" "enrichment"; succeeding "d" "destination"] in
  let s := fst (dispatch_all [0%nat; 1%nat; 0%nat] (engine xs)
                  (fst (Ctx.create "track" (one_event "page")))) in
  exists w',
    flush Delivery.attempt Delivery.ensure 4 (fst s) (snd s)
    = Some (set_queue [] (fst s), w', [0%nat; 1%nat; 0%nat]).
Proof.
  intros xs s.
  apply (flush_returns_fifo_when_nothing_fails Delivery.attempt Delivery.ensure
           (fst s) (snd s)).
  apply (flushOne_resolves_without_pre Delivery.attempt Delivery.ensure (fst s)
           delivery_attempt_never_rejects eq_refl).
Defined.

Lemma flush_after_flush_is_noop_witness :
  let s := dispatched_one [succeeding "d" "destination"] "page" in
  exists this' w' flushed,
    flush Delivery.attempt Delivery.ensure 2 (fst s) (snd s) = Some (this', w', flushed) /\
    this' = set_queue [] (fst s) /\
    flush Delivery.attempt Delivery.ensure 1 this' w' = Some (this', w', []).
Proof.
  intros s.
  destruct (flush Delivery.attempt Delivery.ensure 2 (fst s) (snd s))
    as [[[this' w'] flushed]|] eqn:E; [|discriminate E].
  exists this', w', flushed. split; [reflexivity|].
  apply (flush_after_flush_is_noop Delivery.attempt Delivery.ensure
           2 0 (fst s) this' (snd s) w' flushed E).
Defined.

Lemma plugin_of_other_type_only_gates_witness :
  let d := succeeding "d" "destination" in
  let u := plugin "u" "utility" (fun _ => Update "spoiled") in
  let e := failing "e" "enrichment" in
  flushOne Delivery.attempt Delivery.ensure (engine [d; u; e]) 0%nat (one_event "page")
  = (if isLoaded u (one_event "page")
     then flushOne Delivery.attempt Delivery.ensure (engine [d; e]) 0%nat (one_event "page")
     else (one_event "page", Resolved None)).
Proof.
  intros d u e.
  apply (plugin_of_other_type_only_gates Delivery.attempt Delivery.ensure
           (engine [d; u; e]) (engine [d; e]) [d] [e] u 0%nat (one_event "page"));
    solve [reflexivity | discriminate].
Defined.

Lemma flushOne_without_stage_plugins_witness :
  let u := plugin "u" "utility" (fun _ => Update "spoiled") in
  flushOne Delivery.attempt Delivery.ensure (engine [u]) 0%nat (one_event "page")
  = (Ctx.stats_increment 0%nat "message_delivered" (Ctx.seal 0%nat (one_event "page")),
     Resolved (Some 0%nat)) /\
  flushOne Delivery.attempt Delivery.ensure (engine []) 0%nat (one_event "page")
  = (Ctx.stats_increment 0%nat "message_delivered" (Ctx.seal 0%nat (one_event "page")),
     Resolved (Some 0%nat)).
Proof.
  intros u. split.
  - apply (flushOne_without_stage_plugins Delivery.attempt Delivery.ensure
             (engine [u]) 0%nat (one_event "page")).
    constructor; [|constructor].
    split; [reflexivity|]. split_and!; discriminate.
  - apply (flushOne_without_stage_plugins Delivery.attempt Delivery.ensure
             (engine []) 0%nat (one_event "page")).
    constructor.
Defined.

Lemma pre_stage_failure_skips_the_rest_witness :
  let this := engine [stamping "A"; succeeding "e" "enrichment"; failing "B" "before";
                      succeeding "C" "before"; succeeding "d" "destination"] in
  let w := one_event "new" in
  let w1 := fst (run_before Delivery.ensure [stamping "A"] 0%nat w) in
  let w2 := fst (Delivery.ensure 0%nat (failing "B" "before") w1) in
  flushOne Delivery.attempt Delivery.ensure this 0%nat w = (w2, Rejected "boom") /\
  journal w2 = [Process "A" 0%nat; Process "B" 0%nat] /\
  Ctx.is_sealed 0%nat w2 = false.
Proof.
  intros this w w1 w2. split; [|split; reflexivity].
  apply (pre_stage_failure_skips_the_rest Delivery.attempt Delivery.ensure
           this 0%nat 0%nat w w1 w2 [stamping "A"] [succeeding "C" "before"]
           (failing "B" "before") "boom"); reflexivity.
Defined.

Lemma no_retry_without_pre_plugins_witness :
  let s := dispatched_one [failing "e" "enrichment"; failing "d" "destination"] "page" in
  (forall ctx w0, exists w1 r,
      flushOne Delivery.attempt Delivery.ensure (fst s) ctx w0 = (w1, Resolved r)) /\
  exists w',
    flush Delivery.attempt Delivery.ensure 2 (fst s) (snd s)
    = Some (set_queue [] (fst s), w', [0%nat]).
Proof.
  intros s.
  apply (no_retry_without_pre_plugins Delivery.attempt Delivery.ensure (fst s) (snd s)).
  - apply delivery_attempt_never_rejects.
  - reflexivity.
Defined.
